(** * Redistribution client checker: a shallow embedding of [app.py]

    The script audits a Panorama appliance in two phases.  A text-protocol
    session (netmiko) runs [show redistribution service status]; the output
    is parsed with three regular expressions and gates the second phase, in
    which the management API (pan-os-python) enumerates the redistribution
    clients, registers each as a child firewall, queries every child and
    prints a table.

    Python values are embedded as an inductive type, dictionaries built by
    the script as finite maps, exceptions as an error type, and the calls to
    the outside world (netmiko, pan-os-python, logging, print) as an event
    trace produced under an explicit description of what the world answers.

    Text is a Rocq [string]; a character is read as the code point of the
    same number (U+0000 to U+00FF), and the character classes below are
    those of CPython on that range. *)

From Stdlib Require Import ZArith Ascii String List Bool Lia.
From stdpp Require Import base option list gmap strings.

Local Open Scope string_scope.
Local Open Scope list_scope.

(** ** Python values and exceptions *)

#[local] Set Warnings "-register-all".

Inductive pyval :=
| PNone
| PBool (b : bool)
| PInt (z : Z)
| PStr (s : string)
| PDict (items : list (string * pyval))
| PList (elems : list pyval).

Inductive exn :=
| NameError (name : string)
| KeyError (key : string)
| TypeError (msg : string)
| AttributeError (msg : string)
| IndexError (msg : string)
| ValueError (msg : string)
| PanDeviceError (msg : string)
| OtherException (msg : string).

Inductive result (A : Type) :=
| Ok (a : A)
| Raise (e : exn).
Arguments Ok {A} a.
Arguments Raise {A} e.

(** Sequencing stops at the first exception. *)
#[global] Instance result_ret : MRet result := fun A a => Ok a.
#[global] Instance result_bind : MBind result := fun A B k r =>
  match r with
  | Ok a => k a
  | Raise e => Raise e
  end.

#[global] Instance result_fmap : FMap result := fun A B f r =>
  match r with
  | Ok a => Ok (f a)
  | Raise e => Raise e
  end.

Definition is_ok {A} (r : result A) : bool :=
  match r with Ok _ => true | Raise _ => false end.

(** ** Characters and strings *)

Module Text.

Definition code (c : ascii) : N := N_of_ascii c.

Definition between (lo hi : N) (c : ascii) : bool :=
  ((lo <=? code c) && (code c <=? hi))%N.

(** [\s] on [str] patterns: the characters for which [str.isspace()]
    holds. *)
Definition is_space (c : ascii) : bool :=
  between 9 13 c || between 28 32 c || (code c =? 133)%N || (code c =? 160)%N.

(** [\d]: the decimal digits. *)
Definition is_digit (c : ascii) : bool := between 48 57 c.

(** [\w]: alphanumeric characters and the underscore. *)
Definition is_word (c : ascii) : bool :=
  between 48 57 c || between 65 90 c || between 97 122 c || (code c =? 95)%N
  || (code c =? 170)%N || between 178 179 c || (code c =? 181)%N
  || between 185 186 c || between 188 190 c
  || between 192 214 c || between 216 246 c || between 248 255 c.

(** [.] without [re.DOTALL]: anything but a line feed. *)
Definition is_dot (c : ascii) : bool := negb (code c =? 10)%N.

Definition lower_char (c : ascii) : ascii :=
  if between 65 90 c || between 192 214 c || between 216 222 c
  then ascii_of_N (code c + 32)
  else c.

Fixpoint map_str (f : ascii → ascii) (s : string) : string :=
  match s with
  | EmptyString => EmptyString
  | String c s' => String (f c) (map_str f s')
  end.

(** [s.lower()] *)
Definition lower (s : string) : string := map_str lower_char s.

(** [s.replace(" ", "_")]: the pattern is one character long, so the
    replacement is character by character. *)
Definition replace_space (s : string) : string :=
  map_str (fun c => if Ascii.eqb c " " then "_"%char else c) s.

Fixpoint all (p : ascii → bool) (s : string) : bool :=
  match s with
  | EmptyString => true
  | String c s' => p c && all p s'
  end.

Fixpoint take (n : nat) (s : string) : string :=
  match n, s with
  | S n', String c s' => String c (take n' s')
  | _, _ => EmptyString
  end.

Fixpoint drop (n : nat) (s : string) : string :=
  match n, s with
  | S n', String _ s' => drop n' s'
  | _, _ => s
  end.

(** Length of the longest prefix of [s] made of characters of class [p]. *)
Fixpoint run (p : ascii → bool) (s : string) : nat :=
  match s with
  | String c s' => if p c then S (run p s') else 0
  | EmptyString => 0
  end.

(** [Some rest] when [s = l ++ rest]. *)
Fixpoint strip_prefix (l s : string) : option string :=
  match l, s with
  | EmptyString, _ => Some s
  | String a l', String b s' =>
      if Ascii.eqb a b then strip_prefix l' s' else None
  | String _ _, EmptyString => None
  end.

(** Value of a string of decimal digits, most significant first. *)
Fixpoint decimal (acc : Z) (s : string) : Z :=
  match s with
  | EmptyString => acc
  | String c s' => decimal (10 * acc + (Z.of_N (code c) - 48)) s'
  end.

End Text.

(** ** Regular expressions

    The three patterns of [parse_status_command_output] are sequences of a
    literal, a greedy [+] over a character class, and a capturing group
    around such a [+].  [match_here] is the backtracking matcher of [re] on
    this fragment: a [+] first takes the longest run and gives characters
    back one at a time while the rest of the pattern fails. *)

Module Re.

Inductive node :=
| Lit (s : string)
| Plus (cls : ascii → bool)
| GroupPlus (cls : ascii → bool).

Definition pattern := list node.

(** Try [f n], [f (n-1)], ..., [f 1] and keep the first success. *)
Fixpoint backtrack {A} (f : nat → option A) (n : nat) : option A :=
  match n with
  | O => None
  | S n' =>
      match f n with
      | Some r => Some r
      | None => backtrack f n'
      end
  end.

(** Match [p] at the start of [s]; the result lists the captured groups. *)
Fixpoint match_here (p : pattern) (s : string) : option (list string) :=
  match p with
  | [] => Some []
  | Lit l :: p' =>
      match Text.strip_prefix l s with
      | Some s' => match_here p' s'
      | None => None
      end
  | Plus cls :: p' =>
      backtrack (fun k => match_here p' (Text.drop k s)) (Text.run cls s)
  | GroupPlus cls :: p' =>
      backtrack
        (fun k =>
           match match_here p' (Text.drop k s) with
           | Some gs => Some (Text.take k s :: gs)
           | None => None
           end)
        (Text.run cls s)
  end.

(** [re.search(p, s)]: the match at the leftmost position that has one. *)
Fixpoint search (p : pattern) (s : string) : option (list string) :=
  match match_here p s with
  | Some gs => Some gs
  | None =>
      match s with
      | String _ s' => search p s'
      | EmptyString => None
      end
  end.

(** [m.group(n)] for [n >= 1]. *)
Definition group (m : list string) (n : nat) : result string :=
  match m !! (n - 1)%nat with
  | Some g => Ok g
  | None => Raise (IndexError "no such group")
  end.

(** Declarative reading of a pattern: [matches p m gs] when the string
    [m] belongs to the language of [p], the groups capturing [gs]. *)
Inductive matches : pattern → string → list string → Prop :=
| matches_nil : matches [] "" []
| matches_lit l p m gs :
    matches p m gs → matches (Lit l :: p) (l +:+ m) gs
| matches_plus cls p w m gs :
    w ≠ "" → Text.all cls w = true →
    matches p m gs → matches (Plus cls :: p) (w +:+ m) gs
| matches_group cls p w m gs :
    w ≠ "" → Text.all cls w = true →
    matches p m gs → matches (GroupPlus cls :: p) (w +:+ m) (w :: gs).

(** The pattern matches somewhere in [text]. *)
Definition occurs (p : pattern) (text : string) : Prop :=
  ∃ pre m post gs, text = pre +:+ m +:+ post ∧ matches p m gs.

(** Number of capturing groups. *)
Fixpoint groups (p : pattern) : nat :=
  match p with
  | [] => 0
  | GroupPlus _ :: p' => S (groups p')
  | _ :: p' => groups p'
  end.

End Re.

(** ** Operations on Python values *)

Fixpoint assoc (k : string) (items : list (string * pyval)) : option pyval :=
  match items with
  | [] => None
  | (k', v) :: items' => if String.eqb k k' then Some v else assoc k items'
  end.

(** [v[k]] for a string key [k] *)
Definition getitem (v : pyval) (k : string) : result pyval :=
  match v with
  | PDict items =>
      match assoc k items with
      | Some x => Ok x
      | None => Raise (KeyError k)
      end
  | PStr _ => Raise (TypeError "string indices must be integers")
  | PList _ => Raise (TypeError "list indices must be integers or slices, not str")
  | PNone => Raise (TypeError "'NoneType' object is not subscriptable")
  | PBool _ => Raise (TypeError "'bool' object is not subscriptable")
  | PInt _ => Raise (TypeError "'int' object is not subscriptable")
  end.

(** [d[k]] on a dictionary the script builds itself *)
Definition lookup_key (d : gmap string pyval) (k : string) : result pyval :=
  match d !! k with
  | Some v => Ok v
  | None => Raise (KeyError k)
  end.

(** [isinstance(v, dict)] *)
Definition is_dict (v : pyval) : bool :=
  match v with PDict _ => true | _ => false end.

(** [v is not None] *)
Definition is_not_none (v : pyval) : bool :=
  match v with PNone => false | _ => true end.

(** [v == s] for a string literal [s] *)
Definition eq_str (v : pyval) (s : string) : bool :=
  match v with PStr t => String.eqb t s | _ => false end.

Fixpoint chars (s : string) : list pyval :=
  match s with
  | EmptyString => []
  | String c s' => PStr (String c EmptyString) :: chars s'
  end.

(** The elements a [for] loop over [v] visits. *)
Definition iterate (v : pyval) : result (list pyval) :=
  match v with
  | PList l => Ok l
  | PDict items => Ok (map (fun kv => PStr (fst kv)) items)
  | PStr s => Ok (chars s)
  | PNone => Raise (TypeError "'NoneType' object is not iterable")
  | PBool _ => Raise (TypeError "'bool' object is not iterable")
  | PInt _ => Raise (TypeError "'int' object is not iterable")
  end.

(** [v.lower()] *)
Definition py_lower (v : pyval) : result pyval :=
  match v with
  | PStr s => Ok (PStr (Text.lower s))
  | _ => Raise (AttributeError "lower")
  end.

(** [v.replace(" ", "_")] *)
Definition py_replace_space (v : pyval) : result pyval :=
  match v with
  | PStr s => Ok (PStr (Text.replace_space s))
  | _ => Raise (AttributeError "replace")
  end.

(** [sys.int_info.default_max_str_digits]: the most digits [int] reads from
    a string, in CPython 3.11 and later and in the last releases of 3.7 to
    3.10.  The script leaves the interpreter's setting alone. *)
Definition int_max_str_digits : nat := 4300.

Definition int_limit_error : exn :=
  ValueError "Exceeds the limit (4300 digits) for integer string conversion".

(** [int(v)].  On strings only the form that reaches it here is accepted,
    one or more decimal digits; Python also reads signs, surrounding blanks
    and underscores, which are taken to raise.  Integers are unbounded, as
    in the language, but the conversion from a string is not: every digit
    counts towards the limit, leading zeros too, and a string with more
    digits raises [ValueError]. *)
Definition py_int (v : pyval) : result pyval :=
  match v with
  | PStr s =>
      if negb (String.eqb s "") && Text.all Text.is_digit s
      then
        if (String.length s <=? int_max_str_digits)%nat
        then Ok (PInt (Text.decimal 0 s))
        else Raise int_limit_error
      else Raise (ValueError "invalid literal for int() with base 10")
  | PInt z => Ok (PInt z)
  | PBool b => Ok (PInt (if b then 1 else 0))
  | _ => Raise (TypeError "int() argument must be a string or a number")
  end.

(** ** The status parser (app.py, lines 82-106) *)

(** [r"Redistribution service:\s+(?P<status>\w+)"] *)
Definition pat_status : Re.pattern :=
  [Re.Lit "Redistribution service:"; Re.Plus Text.is_space;
   Re.GroupPlus Text.is_word].

(** [r"SSL config:\s+(?P<ssl_config>.+)"] *)
Definition pat_ssl_config : Re.pattern :=
  [Re.Lit "SSL config:"; Re.Plus Text.is_space; Re.GroupPlus Text.is_dot].

(** [r"number of clients:\s+(?P<clients>\d+)"] *)
Definition pat_clients : Re.pattern :=
  [Re.Lit "number of clients:"; Re.Plus Text.is_space;
   Re.GroupPlus Text.is_digit].

Definition patterns : list (string * Re.pattern) :=
  [ ("redistribution_status", pat_status);
    ("ssl_config", pat_ssl_config);
    ("number_of_clients", pat_clients) ].

(** The loop over [patterns.items()]. *)
Fixpoint extract (ps : list (string * Re.pattern)) (output : string)
    (parsed_data : gmap string pyval) : result (gmap string pyval) :=
  match ps with
  | [] => Ok parsed_data
  | (key, pattern) :: ps' =>
      match Re.search pattern output with
      | Some m =>
          g ← Re.group m 1;
          extract ps' output (<[key := PStr g]> parsed_data)
      | None => extract ps' output parsed_data
      end
  end.

Definition parse_status_command_output (output : string)
    : result (gmap string pyval) :=
  parsed_data ← extract patterns output ∅;
  parsed_data ←
    match parsed_data !! "ssl_config" with
    | Some v =>
        l ← py_lower v;
        r ← py_replace_space l;
        Ok (<["ssl_config" := r]> parsed_data)
    | None => Ok parsed_data
    end;
  parsed_data ←
    match parsed_data !! "number_of_clients" with
    | Some v =>
        n ← py_int v;
        Ok (<["number_of_clients" := n]> parsed_data)
    | None => Ok parsed_data
    end;
  Ok parsed_data.

(** ** The outside world

    The script talks to the appliance through netmiko and pan-os-python.
    A [World] fixes what each call answers: a value, or an exception.  An
    API answer is the dictionary [parse_xml_response] builds from the
    reply of [op] (xmltodict turns a lone child element into a dictionary
    and repeated ones into a list).  A child firewall is addressed by its
    position among [pan.children] and its serial. *)

Record Firewall := { serial : pyval }.

Record Panorama := { children : list Firewall }.

(** [pan.add(firewall)] appends to [pan.children]. *)
Definition add (pan : Panorama) (firewall : Firewall) : Panorama :=
  {| children := children pan ++ [firewall] |}.

Record World := {
  ConnectHandler : result unit;
  send_command : string → result string;
  refresh_system_info : result unit;
  pan_op : string → result pyval;
  firewall_op : nat → Firewall → string → result pyval;
}.

Inductive level := DEBUG | ERROR.

Inductive logmsg :=
| Msg (s : string)
| MsgExn (s : string) (e : exn)
| MsgStr (s : string) (v : string)
| MsgVal (s : string) (v : pyval)
| MsgParsed (d : gmap string pyval)
| MsgChildren (l : list Firewall).

(** What [tabulate] is given. *)
Record Table := {
  table_data : list (list pyval);
  headers : list string;
  tablefmt : string;
}.

Inductive event :=
| EConnect
| ESendCommand (command : string)
| EDisconnect
| ELog (lvl : level) (m : logmsg)
| ERefreshSystemInfo
| EPanOp (cmd : string)
| EFirewallOp (index : nat) (firewall : Firewall) (cmd : string)
| EPrint (table : Table).

(** A computation leaves a trace of events and ends with a value or an
    uncaught exception. *)
Definition M (A : Type) : Type := list event * result A.

#[global] Instance M_ret : MRet M := fun A a => ([], Ok a).
#[global] Instance M_bind : MBind M := fun A B k m =>
  match m with
  | (t, Ok a) => let '(t', r) := k a in (t ++ t', r)
  | (t, Raise e) => (t, Raise e)
  end.

Definition trace {A} (m : M A) : list event := fst m.
Definition outcome {A} (m : M A) : result A := snd m.

(** A call to the outside: the event, then the world's answer. *)
Definition call {A} (ev : event) (r : result A) : M A := ([ev], r).

Definition emit (ev : event) : M unit := ([ev], Ok tt).

Definition lift {A} (r : result A) : M A := ([], r).

Definition log (lvl : level) (m : logmsg) : M unit := emit (ELog lvl m).

(** [try: body except <classes matched by handles> as e: handler e] *)
Definition try_except {A} (body : M A) (handles : exn → bool)
    (handler : exn → M A) : M A :=
  match body with
  | (t, Ok a) => (t, Ok a)
  | (t, Raise e) =>
      if handles e
      then let '(t', r) := handler e in (t ++ t', r)
      else (t, Raise e)
  end.

(** [except Exception]: every exception the model has. *)
Definition any_Exception (e : exn) : bool := true.

Definition is_PanDeviceError (e : exn) : bool :=
  match e with PanDeviceError _ => true | _ => false end.

(** ** The script *)

Definition cmd_status : string := "show redistribution service status".
Definition cmd_redist_clients : string :=
  "<show><redistribution><service><client>all</client></service></redistribution></show>".
Definition cmd_devices_connected : string :=
  "<show><devices><connected/></devices></show>".
Definition cmd_system_info : string :=
  "<show><system><info/></system></show>".

(** Lines 51-67.  The session handle carries no data of its own. *)
Definition connect_to_panorama (w : World) : M (option unit) :=
  try_except
    (net_connect ← call EConnect (ConnectHandler w);
     log DEBUG (Msg "Connected successfully to the device.");;
     mret (Some net_connect))
    any_Exception
    (fun e =>
       log ERROR (MsgExn "Error connecting to the device: " e);;
       mret None).

(** Lines 70-79. *)
Definition send_command_to_panorama (w : World) (command : string)
    : M (option string) :=
  try_except
    (log DEBUG (MsgStr "Sending command: " command);;
     output ← call (ESendCommand command) (send_command w command);
     log DEBUG (Msg "Command executed.");;
     mret (Some output))
    any_Exception
    (fun e =>
       log ERROR (MsgExn "Error sending command: " e);;
       mret None).

(** Truth value of the command output: [None] and [""] are false. *)
Definition truthy (output : option string) : bool :=
  match output with
  | Some s => negb (String.eqb s "")
  | None => false
  end.

(** Lines 116-142.  The result is the binding of [parsed_output] when the
    block is left: [None] when no assignment was executed. *)
Definition gate_phase (w : World) : M (option (gmap string pyval)) :=
  net_connect ← connect_to_panorama w;
  match net_connect with
  | Some _ =>
      show_redistribution_service_status ←
        send_command_to_panorama w cmd_status;
      parsed_output ←
        (if truthy show_redistribution_service_status
         then
           let text := default "" show_redistribution_service_status in
           log DEBUG (Msg "Command output:");;
           log DEBUG (Msg text);;
           parsed_output ← lift (parse_status_command_output text);
           log DEBUG (MsgParsed parsed_output);;
           mret (Some parsed_output)
         else
           log DEBUG (Msg "No output received from the command.");;
           mret None);
      emit EDisconnect;;
      mret parsed_output
  | None =>
      log ERROR (Msg "Unable to establish connection with the device.");;
      mret None
  end.

(** The condition of lines 145-148; [and] evaluates its right operand
    only when the left one is true.  (The comment above it in the source
    says the SSL configuration is NOT the default one; the code tests that
    it is.) *)
Definition gate_check (parsed_output : option (gmap string pyval))
    : result bool :=
  match parsed_output with
  | None => Raise (NameError "parsed_output")
  | Some d =>
      status ← lookup_key d "redistribution_status";
      if eq_str status "up"
      then
        ssl ← lookup_key d "ssl_config";
        Ok (eq_str ssl "default_certificates")
      else Ok false
  end.

(** [x["response"]["result"]] *)
Definition response_result (x : pyval) : result pyval :=
  r ← getitem x "response";
  getitem r "result".

(** [list_of_redist_clients["response"]["result"]["entry"]] *)
Definition entry_of (list_of_redist_clients : pyval) : result pyval :=
  r ← response_result list_of_redist_clients;
  getitem r "entry".

(** The body of the loop of lines 180-182, over the elements left. *)
Fixpoint add_each (pan : Panorama) (entries : list pyval) : result Panorama :=
  match entries with
  | [] => Ok pan
  | each :: entries' =>
      host ← getitem each "host";
      add_each (add pan {| serial := host |}) entries'
  end.

(** Lines 173-182: a single entry or a list of entries. *)
Definition register_clients (pan : Panorama) (list_of_redist_clients : pyval)
    : result Panorama :=
  entry ← entry_of list_of_redist_clients;
  if is_dict entry
  then
    entry ← entry_of list_of_redist_clients;
    host ← getitem entry "host";
    Ok (add pan {| serial := host |})
  else
    entry ← entry_of list_of_redist_clients;
    entries ← iterate entry;
    add_each pan entries.

(** Lines 198-229: the body of the loop over [pan.children], for the child
    at position [i]; the result is the dictionary [fw], keys in insertion
    order. *)
Definition collect (w : World) (i : nat) (firewall : Firewall)
    : M (list (string * pyval)) :=
  redist_client_firewall_info ←
    call (EFirewallOp i firewall cmd_redist_clients)
         (firewall_op w i firewall cmd_redist_clients);
  log DEBUG (MsgVal "" redist_client_firewall_info);;
  system_info ←
    call (EFirewallOp i firewall cmd_system_info)
         (firewall_op w i firewall cmd_system_info);
  lift (
    r ← response_result system_info;
    fw_info ← getitem r "system";
    hostname ← getitem fw_info "hostname";
    ipaddress ← getitem fw_info "ip-address";
    serial ← getitem fw_info "serial";
    model ← getitem fw_info "model";
    sw_version ← getitem fw_info "sw-version";
    app_version ← getitem fw_info "app-version";
    device_cert_status ← getitem fw_info "device-certificate-status";
    let fw :=
      [ ("hostname", hostname); ("ipaddress", ipaddress);
        ("serial", serial); ("model", model);
        ("sw_version", sw_version); ("app_version", app_version);
        ("device_cert_status", device_cert_status) ] in
    result ← response_result redist_client_firewall_info;
    let is_redistribution_server := is_not_none result in
    Ok (fw ++ [("redistr_server", PBool is_redistribution_server)])).

(** The loop of lines 197-229 from position [i] on; [redis_client_list]
    holds the records appended so far. *)
Fixpoint collect_loop (w : World) (i : nat) (firewalls : list Firewall)
    (redis_client_list : list (list (string * pyval)))
    : M (list (list (string * pyval))) :=
  match firewalls with
  | [] => mret redis_client_list
  | firewall :: firewalls' =>
      fw ← collect w i firewall;
      collect_loop w (S i) firewalls' (redis_client_list ++ [fw])
  end.

(** Lines 231-238. *)
Definition make_table (redis_client_list : list (list (string * pyval)))
    : Table :=
  {| headers :=
       match redis_client_list with
       | first :: _ => map fst first
       | [] => []
       end;
     table_data := map (map snd) redis_client_list;
     tablefmt := "grid" |}.

(** Lines 156-161: the identity validation; a [PanDeviceError] is logged
    and the script goes on. *)
Definition validate_creds (w : World) : M unit :=
  try_except
    (call ERefreshSystemInfo (refresh_system_info w);;
     log DEBUG (Msg "Successfully connected to Panorama with credientials"))
    is_PanDeviceError
    (fun pan_device_error =>
       log ERROR (MsgExn "Failed to connect to Panorama: " pan_device_error)).

(** Lines 163-240: enumeration, registration, collection and the table. *)
Definition enumerate_and_collect (w : World) (pan : Panorama)
    : M (list (list (string * pyval))) :=
  list_of_redist_clients ←
    call (EPanOp cmd_redist_clients) (pan_op w cmd_redist_clients);
  log DEBUG (MsgVal "list_of_redist_clients: " list_of_redist_clients);;
  pan ← lift (register_clients pan list_of_redist_clients);
  log DEBUG (MsgChildren (children pan));;
  list_of_connected_devices ←
    call (EPanOp cmd_devices_connected) (pan_op w cmd_devices_connected);
  redis_client_list ← collect_loop w 0 (children pan) [];
  emit (EPrint (make_table redis_client_list));;
  mret redis_client_list.

(** Lines 149-240: the body of the gate's [if]. *)
Definition audit_phase (w : World) : M (list (list (string * pyval))) :=
  let pan := {| children := [] |} in
  validate_creds w;;
  enumerate_and_collect w pan.

(** How a run ends when no exception escapes. *)
Inductive ending :=
| GateSkipped
| Complete (redis_client_list : list (list (string * pyval))).

(** Lines 115-240. *)
Definition main (w : World) : M ending :=
  parsed_output ← gate_phase w;
  proceed ← lift (gate_check parsed_output);
  if (proceed : bool)
  then
    redis_client_list ← audit_phase w;
    mret (Complete redis_client_list)
  else mret GateSkipped.

(** ** Worlds

    Changing one answer of a world, and the concrete worlds the statements
    below are evaluated on. *)

Definition with_send_command (f : string → result string) (w : World) : World :=
  {| ConnectHandler := ConnectHandler w;
     send_command := f;
     refresh_system_info := refresh_system_info w;
     pan_op := pan_op w;
     firewall_op := firewall_op w |}.

Definition with_refresh_system_info (r : result unit) (w : World) : World :=
  {| ConnectHandler := ConnectHandler w;
     send_command := send_command w;
     refresh_system_info := r;
     pan_op := pan_op w;
     firewall_op := firewall_op w |}.

Definition with_pan_op (f : string → result pyval) (w : World) : World :=
  {| ConnectHandler := ConnectHandler w;
     send_command := send_command w;
     refresh_system_info := refresh_system_info w;
     pan_op := f;
     firewall_op := firewall_op w |}.

Definition with_firewall_op (f : nat → Firewall → string → result pyval)
    (w : World) : World :=
  {| ConnectHandler := ConnectHandler w;
     send_command := send_command w;
     refresh_system_info := refresh_system_info w;
     pan_op := pan_op w;
     firewall_op := f |}.

Module Scenario.

Definition nl : string := String (ascii_of_nat 10) "".

Definition status_text : string :=
  "Redistribution service: up" +:+ nl +:+
  "SSL config: Default certificates" +:+ nl +:+
  "number of clients: 3".

(** The record the specification gives for [status_text]. *)
Definition status_fields : gmap string pyval :=
  <["redistribution_status" := PStr "up"]>
    (<["ssl_config" := PStr "default_certificates"]>
       (<["number_of_clients" := PInt 3]> ∅)).

Definition reply (result : pyval) : pyval :=
  PDict [("response", PDict [("@status", PStr "success"); ("result", result)])].

Definition member (host : string) : pyval := PDict [("host", PStr host)].

Definition system (host : string) : list (string * pyval) :=
  [ ("hostname", PStr ("fw-" +:+ host)); ("ip-address", PStr "192.0.2.1");
    ("serial", PStr host); ("model", PStr "PA-220");
    ("sw-version", PStr "10.1.0"); ("app-version", PStr "8500-7000");
    ("device-certificate-status", PStr "Valid") ].

Definition host_of (firewall : Firewall) : string :=
  match serial firewall with PStr h => h | _ => "" end.

(** Every call succeeds: the gate passes, three members are enumerated,
    none of them is a redistribution server. *)
Definition three_members : World :=
  {| ConnectHandler := Ok tt;
     send_command := fun _ => Ok status_text;
     refresh_system_info := Ok tt;
     pan_op := fun cmd =>
       if String.eqb cmd cmd_redist_clients
       then Ok (reply (PDict [("entry",
                  PList [member "001"; member "002"; member "003"])]))
       else Ok (reply PNone);
     firewall_op := fun i firewall cmd =>
       if String.eqb cmd cmd_system_info
       then Ok (reply (PDict [("system", PDict (system (host_of firewall)))]))
       else Ok (reply PNone) |}.

(** The system-info query of member #2 fails. *)
Definition second_member_fails : World :=
  with_firewall_op
    (fun i firewall cmd =>
       if Nat.eqb i 1 && String.eqb cmd cmd_system_info
       then Raise (PanDeviceError "timed out")
       else firewall_op three_members i firewall cmd)
    three_members.

(** The gate command gives no output. *)
Definition no_output : World :=
  with_send_command (fun _ => Ok "") three_members.

(** The gate command fails. *)
Definition command_fails : World :=
  with_send_command (fun _ => Raise (OtherException "read timeout"))
    three_members.

(** The status text has no SSL line. *)
Definition ssl_line_missing : World :=
  with_send_command (fun _ => Ok "Redistribution service: up") three_members.

(** The status text matches none of the patterns. *)
Definition unrelated_output : World :=
  with_send_command (fun _ => Ok "Invalid syntax.") three_members.

(** The identity validation is rejected. *)
Definition validation_rejected : World :=
  with_refresh_system_info (Raise (PanDeviceError "Invalid credentials"))
    three_members.

(** The system info of member #1 has no serial. *)
Definition first_member_without_serial : World :=
  with_firewall_op
    (fun i firewall cmd =>
       if Nat.eqb i 0 && String.eqb cmd cmd_system_info
       then Ok (reply (PDict [("system",
                  PDict (filter (fun kv => fst kv ≠ "serial") (system "001")))]))
       else firewall_op three_members i firewall cmd)
    three_members.

(** The enumeration returns a single entry. *)
Definition one_member : World :=
  with_pan_op
    (fun cmd =>
       if String.eqb cmd cmd_redist_clients
       then Ok (reply (PDict [("entry", member "001")]))
       else Ok (reply PNone))
    three_members.

(** The connected-devices query answers with another body. *)
Definition other_connected_devices : World :=
  with_pan_op
    (fun cmd =>
       if String.eqb cmd cmd_devices_connected
       then Ok (reply (PDict [("devices",
                  PDict [("entry", PDict [("serial", PStr "009")])])]))
       else pan_op three_members cmd)
    three_members.

(** The service is reported down. *)
Definition service_down : World :=
  with_send_command
    (fun _ => Ok ("Redistribution service: down" +:+ nl +:+
                  "SSL config: Default certificates"))
    three_members.

(** The session cannot be opened. *)
Definition unreachable : World :=
  {| ConnectHandler := Raise (OtherException "TCP connection to device failed");
     send_command := send_command three_members;
     refresh_system_info := refresh_system_info three_members;
     pan_op := pan_op three_members;
     firewall_op := firewall_op three_members |}.

(** The enumeration reply has an empty result: no redistribution client. *)
Definition no_clients : World :=
  with_pan_op (fun cmd => Ok (reply PNone)) three_members.

(** The validation fails with an exception the script does not catch. *)
Definition validation_crashes : World :=
  with_refresh_system_info (Raise (OtherException "connection reset"))
    three_members.

(** [n] times the digit 1. *)
Fixpoint ones (n : nat) : string :=
  match n with
  | O => ""
  | S n' => String "1" (ones n')
  end.

(** The status text of a service that is up, with a client count of [n]
    digits. *)
Definition status_text_with_count (n : nat) : string :=
  "Redistribution service: up" +:+ nl +:+
  "SSL config: Default certificates" +:+ nl +:+
  "number of clients: " +:+ ones n.

(** The three lines, the client count one digit longer than [int] reads. *)
Definition overlong_status_text : string :=
  status_text_with_count (S int_max_str_digits).

(** Nothing but a client count, one digit longer than [int] reads. *)
Definition overlong_count_text : string :=
  "number of clients: " +:+ ones (S int_max_str_digits).

(** The gate command answers with the overlong count. *)
Definition overlong_count : World :=
  with_send_command (fun _ => Ok overlong_status_text) three_members.

End Scenario.

(** ** Vocabulary of the statements *)

(** Text of group 1 of the leftmost match of [p], if there is a match. *)
Definition capture (p : Re.pattern) (output : string) : option string :=
  m ← Re.search p output; m !! 0%nat.

(** The digits captured for the client count, if there are any, are few
    enough for [int] to read them. *)
Definition count_fits (output : string) : bool :=
  match capture pat_clients output with
  | Some clients => (String.length clients <=? int_max_str_digits)%nat
  | None => true
  end.

(** The number a string of decimal digits stands for: the digit [i] places
    from the right counts [10 ^ i] times. *)
Fixpoint digits_value (s : string) : Z :=
  match s with
  | EmptyString => 0
  | String c s' =>
      ((Z.of_N (Text.code c) - 48) * 10 ^ Z.of_nat (String.length s')
       + digits_value s')%Z
  end.

(** The dictionary [d] holds exactly the fields that come from the captures
    [s], [c] and [n] of the three patterns, after the two transformations. *)
Definition fields (s c n : option string) (d : gmap string pyval) : Prop :=
  d !! "redistribution_status" = PStr <$> s ∧
  d !! "ssl_config" = (fun c => PStr (Text.replace_space (Text.lower c))) <$> c ∧
  d !! "number_of_clients" = (fun n => PInt (Text.decimal 0 n)) <$> n ∧
  ∀ k, k ≠ "redistribution_status" → k ≠ "ssl_config" →
       k ≠ "number_of_clients" → d !! k = None.

(** What [send_command_to_panorama] returns for the gate command. *)
Definition gate_output (w : World) : option string :=
  match send_command w cmd_status with
  | Ok output => Some output
  | Raise _ => None
  end.

(** The output of the gate command, when there is one, has a client count
    that [int] reads. *)
Definition output_fits (w : World) : bool :=
  match gate_output w with
  | Some output => count_fits output
  | None => true
  end.

(** Calls to the management API. *)
Definition api_event (e : event) : bool :=
  match e with
  | ERefreshSystemInfo | EPanOp _ | EFirewallOp _ _ _ => true
  | _ => false
  end.

Definition is_print (e : event) : bool :=
  match e with EPrint _ => true | _ => false end.

(** Queries to the child at a position after [k]. *)
Definition queries_after (k : nat) (e : event) : bool :=
  match e with EFirewallOp j _ _ => Nat.ltb k j | _ => false end.

(** The gate lets the run into the audit phase. *)
Definition gate_passes (w : World) : Prop :=
  outcome (gate_phase w) ≫= gate_check = Ok true.

(** The validation does not stop the run: it succeeds, or its exception is
    the one the script catches. *)
Definition validation_survived (w : World) : bool :=
  match refresh_system_info w with
  | Ok _ => true
  | Raise e => is_PanDeviceError e
  end.

(** The children registered from the enumeration reply. *)
Definition members (w : World) : result (list Firewall) :=
  list_of_redist_clients ← pan_op w cmd_redist_clients;
  pan ← register_clients {| children := [] |} list_of_redist_clients;
  Ok (children pan).

(** The run gets as far as the loop over the children [firewalls]. *)
Definition reaches_collection (w : World) (firewalls : list Firewall) : Prop :=
  gate_passes w ∧ validation_survived w = true ∧
  members w = Ok firewalls ∧ is_ok (pan_op w cmd_devices_connected) = true.

(** The system-info reply of the child at position [i] has a [system]
    dictionary without the key [field]. *)
Definition system_info_omits (w : World) (i : nat) (firewall : Firewall)
    (field : string) : Prop :=
  ∃ system_info r items,
    firewall_op w i firewall cmd_system_info = Ok system_info ∧
    response_result system_info = Ok r ∧
    getitem r "system" = Ok (PDict items) ∧
    assoc field items = None.

(** The keys the loop body reads from the [system] dictionary. *)
Definition required_fields : list string :=
  [ "hostname"; "ip-address"; "serial"; "model"; "sw-version"; "app-version";
    "device-certificate-status" ].

(** Two worlds that differ at most in the body of the reply to the
    connected-devices query. *)
Definition same_but_connected_devices (w1 w2 : World) : Prop :=
  ConnectHandler w1 = ConnectHandler w2 ∧
  (∀ c, send_command w1 c = send_command w2 c) ∧
  refresh_system_info w1 = refresh_system_info w2 ∧
  (∀ cmd, cmd ≠ cmd_devices_connected → pan_op w1 cmd = pan_op w2 cmd) ∧
  is_ok (pan_op w1 cmd_devices_connected) = true ∧
  is_ok (pan_op w2 cmd_devices_connected) = true ∧
  (∀ i firewall cmd, firewall_op w1 i firewall cmd = firewall_op w2 i firewall cmd).

(** What was printed. *)
Definition printed (t : list event) : list Table :=
  omap (fun e => match e with EPrint table => Some table | _ => None end) t.

(** Events of the gate phase: the text session and log calls. *)
Definition gate_event (e : event) : Prop :=
  match e with
  | EConnect | ESendCommand _ | EDisconnect | ELog _ _ => True
  | _ => False
  end.

(** Events of the audit phase: API calls, log calls and the table. *)
Definition audit_event (e : event) : Prop :=
  match e with
  | ERefreshSystemInfo | EPanOp _ | EFirewallOp _ _ _ | ELog _ _ | EPrint _ =>
      True
  | _ => False
  end.

Definition is_error_log (e : event) : bool :=
  match e with ELog ERROR _ => true | _ => false end.

(** Events of the loop over the children at positions [lo] to [hi - 1]:
    log calls and queries to those children. *)
Definition loop_event (lo hi : nat) (e : event) : Prop :=
  match e with
  | ELog _ _ => True
  | EFirewallOp j _ _ => (lo ≤ j)%nat ∧ (j < hi)%nat
  | _ => False
  end.

(** The events of the audit phase before the loop over the children, when
    the enumeration answered [list_of_redist_clients] and [firewalls] were
    registered. *)
Definition audit_prefix (w : World) (list_of_redist_clients : pyval)
    (firewalls : list Firewall) : list event :=
  [ ERefreshSystemInfo;
    match refresh_system_info w with
    | Ok _ =>
        ELog DEBUG (Msg "Successfully connected to Panorama with credientials")
    | Raise e => ELog ERROR (MsgExn "Failed to connect to Panorama: " e)
    end;
    EPanOp cmd_redist_clients;
    ELog DEBUG (MsgVal "list_of_redist_clients: " list_of_redist_clients);
    ELog DEBUG (MsgChildren firewalls);
    EPanOp cmd_devices_connected ].

(** The end of the audit phase after the loop: the table is printed when
    the loop ended normally. *)
Definition audit_suffix (r : result (list (list (string * pyval))))
    : list event :=
  match r with
  | Ok redis_client_list => [EPrint (make_table redis_client_list)]
  | Raise _ => []
  end.

(** The keys of a record [fw], in insertion order: the columns of the
    table. *)
Definition column_names : list string :=
  [ "hostname"; "ipaddress"; "serial"; "model"; "sw_version"; "app_version";
    "device_cert_status"; "redistr_server" ].

(** Each descriptive column with the key of the [system] dictionary it is
    read from. *)
Definition column_sources : list (string * string) :=
  [ ("hostname", "hostname"); ("ipaddress", "ip-address");
    ("serial", "serial"); ("model", "model"); ("sw_version", "sw-version");
    ("app_version", "app-version");
    ("device_cert_status", "device-certificate-status") ].

(** The queries of the loop over [firewalls], from position [i] on, in the
    order the loop issues them. *)
Fixpoint loop_queries (i : nat) (firewalls : list Firewall) : list event :=
  match firewalls with
  | [] => []
  | firewall :: firewalls' =>
      EFirewallOp i firewall cmd_redist_clients ::
      EFirewallOp i firewall cmd_system_info ::
      loop_queries (S i) firewalls'
  end.

(** The API calls of a run that completes over the children [firewalls]. *)
Definition api_calls (firewalls : list Firewall) : list event :=
  [ERefreshSystemInfo; EPanOp cmd_redist_clients; EPanOp cmd_devices_connected]
  ++ loop_queries 0 firewalls.

(** A character [ssl_config] can hold: not a space, not a line feed, and
    unchanged by [lower]. *)
Definition token_char (c : ascii) : bool :=
  negb (Ascii.eqb c " ") && Text.is_dot c &&
  Ascii.eqb (Text.lower_char c) c.

(** What a successful collection for the child at position [i] amounts to:
    both queries answered, the [system] dictionary gave the seven values,
    and [fw] holds them under the column names, followed by the flag that
    tells whether the reply to the client query had a result. *)
Definition collected (w : World) (i : nat) (firewall : Firewall)
    (fw : list (string * pyval)) : Prop :=
  ∃ redist_client_firewall_info system_info r fw_info result,
    firewall_op w i firewall cmd_redist_clients =
      Ok redist_client_firewall_info ∧
    firewall_op w i firewall cmd_system_info = Ok system_info ∧
    response_result system_info = Ok r ∧
    getitem r "system" = Ok fw_info ∧
    response_result redist_client_firewall_info = Ok result ∧
    map fst fw = column_names ∧
    Forall (fun '(column, key) =>
              ∃ v, getitem fw_info key = Ok v ∧ assoc column fw = Some v)
      column_sources ∧
    assoc "redistr_server" fw = Some (PBool (is_not_none result)).

(** The children the enumeration registers, none when it fails. *)
Definition registered (w : World) : list Firewall :=
  match members w with
  | Ok firewalls => firewalls
  | Raise _ => []
  end.

(** What the gate comes to on a status text: the parser, then the
    condition, in terms of the captures of the patterns. *)
Definition decision (text : string) : result bool :=
  if count_fits text
  then
    match capture pat_status text with
    | None => Raise (KeyError "redistribution_status")
    | Some status =>
        if String.eqb status "up"
        then
          match capture pat_ssl_config text with
          | None => Raise (KeyError "ssl_config")
          | Some ssl =>
              Ok (String.eqb (Text.replace_space (Text.lower ssl))
                    "default_certificates")
          end
        else Ok false
    end
  else Raise int_limit_error.

(** The error-level log entries the script writes for what the text
    session answers. *)
Definition gate_errors (w : World) : list event :=
  match ConnectHandler w with
  | Raise e =>
      [ ELog ERROR (MsgExn "Error connecting to the device: " e);
        ELog ERROR (Msg "Unable to establish connection with the device.") ]
  | Ok _ =>
      match send_command w cmd_status with
      | Raise e => [ELog ERROR (MsgExn "Error sending command: " e)]
      | Ok _ => []
      end
  end.

(** The error-level log entry the script writes for the validation. *)
Definition validation_errors (w : World) : list event :=
  match refresh_system_info w with
  | Raise e =>
      if is_PanDeviceError e
      then [ELog ERROR (MsgExn "Failed to connect to Panorama: " e)]
      else []
  | Ok _ => []
  end.

(** * Properties *)

(** ** Strings *)

Module TextFacts.
Import Text.

Lemma append_cons (c : ascii) (a b : string) :
  String c a +:+ b = String c (a +:+ b).
Proof. reflexivity. Qed.

Lemma append_nil (b : string) : "" +:+ b = b.
Proof. reflexivity. Qed.

Ltac unfold_append := simpl; rewrite ?append_cons, ?append_nil; simpl.

Lemma append_assoc (a b c : string) : (a +:+ b) +:+ c = a +:+ (b +:+ c).
Proof.
  induction a as [|x a IH]; unfold_append; [reflexivity | now rewrite IH].
Qed.

Lemma append_empty_r (a : string) : a +:+ "" = a.
Proof.
  induction a as [|x a IH]; unfold_append; [reflexivity | now rewrite IH].
Qed.

Lemma strip_prefix_app (l s : string) : strip_prefix l (l +:+ s) = Some s.
Proof.
  induction l as [|a l IH]; unfold_append; [reflexivity |].
  now rewrite Ascii.eqb_refl.
Qed.

Lemma strip_prefix_Some (l s r : string) :
  strip_prefix l s = Some r → s = l +:+ r.
Proof.
  revert s; induction l as [|a l IH]; intros s; simpl.
  - now intros [= ->].
  - destruct s as [|b s]; [discriminate |].
    destruct (Ascii.eqb a b) eqn:E; [| discriminate].
    apply Ascii.eqb_eq in E as ->. intros H.
    now rewrite (IH _ H), append_cons.
Qed.

Lemma take_drop (k : nat) (s : string) : take k s +:+ drop k s = s.
Proof.
  revert s; induction k as [|k IH]; intros [|c s]; unfold_append;
    try reflexivity.
  now rewrite IH.
Qed.

Lemma take_run (cls : ascii → bool) (k : nat) (s : string) :
  (k ≤ run cls s)%nat → all cls (take k s) = true.
Proof.
  revert s; induction k as [|k IH]; intros [|c s]; simpl; try reflexivity.
  destruct (cls c) eqn:E; [| lia].
  intros H. simpl. apply IH. lia.
Qed.

Lemma take_nonempty (cls : ascii → bool) (k : nat) (s : string) :
  (1 ≤ k)%nat → (k ≤ run cls s)%nat → take k s ≠ "".
Proof.
  destruct k as [|k]; [lia |].
  destruct s as [|c s]; simpl; [lia |]. discriminate.
Qed.

Lemma run_app (cls : ascii → bool) (w s : string) :
  all cls w = true → (String.length w ≤ run cls (w +:+ s))%nat.
Proof.
  induction w as [|c w IH]; unfold_append; [lia |].
  intros [-> Hw]%andb_prop. specialize (IH Hw). lia.
Qed.

Lemma drop_app (w s : string) : drop (String.length w) (w +:+ s) = s.
Proof.
  induction w as [|c w IH]; unfold_append; [now destruct s | exact IH].
Qed.

Lemma length_nonempty (w : string) : w ≠ "" → (1 ≤ String.length w)%nat.
Proof. destruct w; simpl; [congruence | lia]. Qed.

Lemma all_map_str (p : ascii → bool) (f : ascii → ascii) (s : string) :
  (∀ c, p (f c) = true) → all p (map_str f s) = true.
Proof.
  intros H. induction s as [|c s IH]; simpl; [reflexivity | now rewrite H, IH].
Qed.

End TextFacts.

(** ** The matcher against the declarative reading *)

Module ReFacts.
Import Re TextFacts.

Lemma backtrack_sound {A} (f : nat → option A) (n : nat) (r : A) :
  backtrack f n = Some r → ∃ k, (1 ≤ k)%nat ∧ (k ≤ n)%nat ∧ f k = Some r.
Proof.
  induction n as [|n IH]; simpl; [discriminate |].
  destruct (f (S n)) eqn:E.
  - intros [= ->]. exists (S n). repeat split; [lia | lia | exact E].
  - intros H. destruct (IH H) as (k & ? & ? & ?).
    exists k. repeat split; [lia | lia | assumption].
Qed.

Lemma backtrack_complete {A} (f : nat → option A) (n k : nat) :
  (1 ≤ k)%nat → (k ≤ n)%nat → is_Some (f k) → is_Some (backtrack f n).
Proof.
  intros H1. induction n as [|n IH]; intros Hk Hf; [lia |]. simpl.
  destruct (f (S n)) eqn:E; [eauto |].
  apply IH; [| assumption].
  destruct (decide (k = S n)) as [-> |]; [| lia].
  rewrite E in Hf. now destruct Hf.
Qed.

Lemma match_here_sound (p : pattern) (s : string) (gs : list string) :
  match_here p s = Some gs →
  ∃ m post, s = m +:+ post ∧ matches p m gs.
Proof.
  revert s gs; induction p as [|[l|cls|cls] p IH]; intros s gs; simpl.
  - intros [= <-]. exists "", s. split; [reflexivity | constructor].
  - destruct (Text.strip_prefix l s) as [s'|] eqn:E; [| discriminate].
    intros H. destruct (IH _ _ H) as (m & post & -> & Hm).
    exists (l +:+ m), post. split; [| now constructor].
    rewrite (strip_prefix_Some _ _ _ E). now rewrite append_assoc.
  - intros H. apply backtrack_sound in H as (k & H1 & Hk & H).
    destruct (IH _ _ H) as (m & post & Hs & Hm).
    exists (Text.take k s +:+ m), post. split.
    + now rewrite append_assoc, <- Hs, take_drop.
    + constructor; eauto using take_nonempty, take_run.
  - intros H. apply backtrack_sound in H as (k & H1 & Hk & H).
    destruct (match_here p (Text.drop k s)) as [gs'|] eqn:E; [| discriminate].
    injection H as <-.
    destruct (IH _ _ E) as (m & post & Hs & Hm).
    exists (Text.take k s +:+ m), post. split.
    + now rewrite append_assoc, <- Hs, take_drop.
    + constructor; eauto using take_nonempty, take_run.
Qed.

Lemma match_here_complete (p : pattern) (m post : string) (gs : list string) :
  matches p m gs → is_Some (match_here p (m +:+ post)).
Proof.
  induction 1 as [|l p m gs _ IH|cls p w m gs Hne Hw _ IH|cls p w m gs Hne Hw _ IH];
    simpl.
  - eauto.
  - now rewrite append_assoc, strip_prefix_app.
  - rewrite append_assoc.
    apply backtrack_complete with (k := String.length w);
      [now apply length_nonempty | now apply run_app |].
    now rewrite drop_app.
  - rewrite append_assoc.
    apply backtrack_complete with (k := String.length w);
      [now apply length_nonempty | now apply run_app |].
    rewrite drop_app. destruct IH as [gs' ->]. eauto.
Qed.

Lemma search_sound (p : pattern) (text : string) (gs : list string) :
  search p text = Some gs →
  ∃ pre m post, text = pre +:+ m +:+ post ∧ matches p m gs.
Proof.
  induction text as [|c text IH]; simpl.
  - destruct (match_here p "") eqn:E; [| discriminate]. intros [= ->].
    destruct (match_here_sound _ _ _ E) as (m & post & ? & ?).
    now exists "", m, post.
  - destruct (match_here p (String c text)) eqn:E.
    + intros [= ->].
      destruct (match_here_sound _ _ _ E) as (m & post & ? & ?).
      now exists "", m, post.
    + intros H. destruct (IH H) as (pre & m & post & -> & ?).
      now exists (String c pre), m, post.
Qed.

Lemma search_complete (p : pattern) (text : string) :
  occurs p text → is_Some (search p text).
Proof.
  intros (pre & m & post & gs & -> & Hm).
  induction pre as [|c pre IH]; simpl.
  - destruct (match_here_complete p m post gs Hm) as [gs' E].
    destruct (m +:+ post); simpl; rewrite E; eauto.
  - destruct (match_here p _); eauto.
Qed.

Lemma search_occurs (p : pattern) (text : string) :
  occurs p text ↔ is_Some (search p text).
Proof.
  split; [apply search_complete |].
  intros [gs H]. destruct (search_sound _ _ _ H) as (pre & m & post & ? & ?).
  now exists pre, m, post, gs.
Qed.

Lemma search_None (p : pattern) (text : string) :
  ¬ occurs p text ↔ search p text = None.
Proof.
  rewrite search_occurs. destruct (search p text); split; intros H;
    try reflexivity; try discriminate.
  - destruct H; eauto.
  - now intros [? ?].
Qed.

Lemma matches_groups (p : pattern) (m : string) (gs : list string) :
  matches p m gs → length gs = groups p.
Proof. induction 1; simpl; congruence. Qed.

Lemma search_groups (p : pattern) (text : string) (gs : list string) :
  search p text = Some gs → length gs = groups p.
Proof.
  intros H. destruct (search_sound _ _ _ H) as (? & ? & ? & ? & Hm).
  exact (matches_groups _ _ _ Hm).
Qed.

End ReFacts.

(** ** The status parser *)

Module ParserFacts.
Import Re TextFacts ReFacts.

(** Shape of a match of [literal \s+ (class+)]. *)
Lemma matches_field (l : string) (c1 c2 : ascii → bool) (m : string)
    (gs : list string) :
  matches [Lit l; Plus c1; GroupPlus c2] m gs →
  ∃ ws cap, gs = [cap] ∧ m = l +:+ ws +:+ cap ∧
    ws ≠ "" ∧ Text.all c1 ws = true ∧ cap ≠ "" ∧ Text.all c2 cap = true.
Proof.
  intros H. inversion H as [|? ? m1 ? H1| |]; subst.
  inversion H1 as [| |? ? ws m2 ? Hws1 Hws2 H2|]; subst.
  inversion H2 as [| | |? ? cap m3 ? Hc1 Hc2 H3]; subst.
  inversion H3; subst.
  exists ws, cap. now rewrite append_empty_r.
Qed.

Lemma capture_Some (l : string) (c1 c2 : ascii → bool) (output : string) :
  occurs [Lit l; Plus c1; GroupPlus c2] output →
  ∃ g, search [Lit l; Plus c1; GroupPlus c2] output = Some [g] ∧
       g ≠ "" ∧ Text.all c2 g = true.
Proof.
  intros [gs E]%search_complete.
  destruct (search_sound _ _ _ E) as (pre & m & post & _ & Hm).
  apply matches_field in Hm as (ws & cap & -> & _ & _ & _ & ? & ?).
  now exists cap.
Qed.

Lemma search_field (l : string) (c1 c2 : ascii → bool) (output : string) :
  search [Lit l; Plus c1; GroupPlus c2] output = None ∨
  ∃ g, search [Lit l; Plus c1; GroupPlus c2] output = Some [g] ∧
       g ≠ "" ∧ Text.all c2 g = true.
Proof.
  destruct (search _ output) as [gs|] eqn:E; [right | now left].
  destruct (search_sound _ _ _ E) as (pre & m & post & _ & Hm).
  apply matches_field in Hm as (ws & cap & -> & _ & _ & _ & ? & ?).
  now exists cap.
Qed.

Lemma py_int_digits (n : string) :
  n ≠ "" → Text.all Text.is_digit n = true →
  py_int (PStr n) =
    if (String.length n <=? int_max_str_digits)%nat
    then Ok (PInt (Text.decimal 0 n))
    else Raise int_limit_error.
Proof.
  intros Hne Hd. unfold py_int. rewrite Hd.
  destruct (String.eqb n "") eqn:E; [| reflexivity].
  now apply String.eqb_eq in E.
Qed.

#[local] Arguments py_int : simpl never.

(** A pattern that captures occurs. *)
Lemma capture_occurs (p : pattern) (text g : string) :
  capture p text = Some g → occurs p text.
Proof.
  unfold capture. intros H. apply search_occurs.
  destruct (search p text); [eauto | discriminate].
Qed.

(** The parser goes wrong in one way only: a client count with more
    digits than [int] reads.  Otherwise it returns the fields captured. *)
Lemma parse_result (output : string) :
  if count_fits output
  then ∃ d, parse_status_command_output output = Ok d ∧
            fields (capture pat_status output) (capture pat_ssl_config output)
                   (capture pat_clients output) d
  else parse_status_command_output output = Raise int_limit_error.
Proof.
  unfold count_fits, parse_status_command_output, patterns, capture.
  simpl extract.
  destruct (search_field "Redistribution service:" Text.is_space
              Text.is_word output) as [E1|(s & E1 & _ & _)];
  destruct (search_field "SSL config:" Text.is_space Text.is_dot output)
    as [E2|(c & E2 & _ & _)];
  destruct (search_field "number of clients:" Text.is_space Text.is_digit
              output) as [E3|(n & E3 & Hn & Hd)];
  unfold pat_status, pat_ssl_config, pat_clients;
  rewrite E1, E2, E3; simpl;
  repeat (rewrite ?lookup_insert_eq, ?lookup_empty; simpl;
          try (rewrite lookup_insert_ne by discriminate));
  try (rewrite (py_int_digits n Hn Hd);
       destruct (String.length n <=? int_max_str_digits)%nat; simpl;
       [| reflexivity]);
  (eexists; split; [reflexivity |]);
  unfold fields; repeat split; intros;
  repeat (rewrite ?lookup_insert_eq, ?lookup_empty; simpl;
          try (rewrite lookup_insert_ne by congruence));
  reflexivity.
Qed.

Lemma parse_fields (output : string) :
  count_fits output = true →
  ∃ d, parse_status_command_output output = Ok d ∧
       fields (capture pat_status output) (capture pat_ssl_config output)
              (capture pat_clients output) d.
Proof. intros H. pose proof (parse_result output) as R. now rewrite H in R. Qed.

Lemma parse_over_limit (output : string) :
  count_fits output = false →
  parse_status_command_output output = Raise int_limit_error.
Proof. intros H. pose proof (parse_result output) as R. now rewrite H in R. Qed.

(** A text the parser returns on has a count that fits. *)
Lemma parse_ok_fits (output : string) (d : gmap string pyval) :
  parse_status_command_output output = Ok d → count_fits output = true.
Proof.
  intros H. destruct (count_fits output) eqn:E; [reflexivity |].
  rewrite (parse_over_limit output E) in H. discriminate.
Qed.

Lemma parse_ok_fields (output : string) (d : gmap string pyval) :
  parse_status_command_output output = Ok d →
  fields (capture pat_status output) (capture pat_ssl_config output)
         (capture pat_clients output) d.
Proof.
  intros H.
  destruct (parse_fields output (parse_ok_fits output d H)) as (d' & Hd' & F).
  congruence.
Qed.

(** [decimal] computes the value in positional notation. *)
Lemma decimal_value (s : string) (acc : Z) :
  Text.decimal acc s =
    (acc * 10 ^ Z.of_nat (String.length s) + digits_value s)%Z.
Proof.
  revert acc; induction s as [|c s IH]; intros acc; simpl digits_value;
    simpl String.length; simpl Text.decimal.
  - change (10 ^ Z.of_nat 0)%Z with 1%Z. lia.
  - rewrite IH, Nat2Z.inj_succ, Z.pow_succ_r by lia. ring.
Qed.

Lemma digits_value_bounds (s : string) :
  Text.all Text.is_digit s = true →
  (0 ≤ digits_value s < 10 ^ Z.of_nat (String.length s))%Z.
Proof.
  induction s as [|c s IH]; simpl digits_value; simpl String.length;
    simpl Text.all.
  - intros _. change (10 ^ Z.of_nat 0)%Z with 1%Z. lia.
  - intros [Hc Hs]%andb_prop. specialize (IH Hs).
    unfold Text.is_digit, Text.between in Hc.
    apply andb_prop in Hc as [Hlo Hhi].
    apply N.leb_le in Hlo. apply N.leb_le in Hhi.
    rewrite Nat2Z.inj_succ, Z.pow_succ_r by lia.
    assert (0 < 10 ^ Z.of_nat (String.length s))%Z by (apply Z.pow_pos_nonneg; lia).
    nia.
Qed.

End ParserFacts.

(** ** Sequencing *)

Module RunFacts.

Lemma bind_ok {A B} (m : M A) (k : A → M B) (a : A) :
  outcome m = Ok a → m ≫= k = (trace m ++ trace (k a), outcome (k a)).
Proof.
  destruct m as [t [a'|e]]; simpl; [| discriminate].
  intros [= ->]. unfold mbind, M_bind. now destruct (k a).
Qed.

Lemma bind_raise {A B} (m : M A) (k : A → M B) (e : exn) :
  outcome m = Raise e → m ≫= k = (trace m, Raise e).
Proof. destruct m as [t [a'|e']]; simpl; [discriminate |]. now intros [= ->]. Qed.

End RunFacts.

(** ** The gate *)

Module GateFacts.
Import RunFacts.

Ltac run_step :=
  cbv [mbind mret M_bind M_ret result_bind result_ret call emit log lift
       try_except any_Exception trace outcome fst snd]; simpl.

Ltac split_last :=
  match goal with
  | |- ∃ t po, (?l, Ok ?p) = (t ++ [EDisconnect], Ok po) ∧ _ =>
      exists (removelast l), p; simpl removelast
  end.

#[local] Arguments count_fits : simpl never.

(** No output, no count. *)
Lemma no_output_fits (w : World) :
  truthy (gate_output w) = false → output_fits w = true.
Proof.
  unfold output_fits. destruct (gate_output w) as [output|]; [| reflexivity].
  simpl. intros H. apply negb_false_iff, String.eqb_eq in H as ->. reflexivity.
Qed.

(** With a session open and a count that [int] reads, the gate phase ends
    normally, its last event is the disconnect, and it binds
    [parsed_output] only when there was output. *)
Lemma gate_phase_closed (w : World) :
  is_ok (ConnectHandler w) = true →
  output_fits w = true →
  ∃ t po,
    gate_phase w = (t ++ [EDisconnect], Ok po) ∧
    Forall (fun e => e ≠ EDisconnect ∧ api_event e = false) t ∧
    (truthy (gate_output w) = false → po = None ∧
       ELog DEBUG (Msg "No output received from the command.") ∈ t) ∧
    (truthy (gate_output w) = true →
       ∃ text, gate_output w = Some text ∧
               Ok po = Some <$> parse_status_command_output text).
Proof.
  unfold gate_phase, connect_to_panorama, send_command_to_panorama,
    output_fits, gate_output.
  destruct (ConnectHandler w) as [[]|]; [intros _ | discriminate].
  destruct (send_command w cmd_status) as [output|e]; intros Hfit; run_step.
  - destruct (String.eqb output "") eqn:E; run_step.
    + split_last. split; [reflexivity |].
      split; [| split; [| discriminate]].
      * repeat constructor; discriminate.
      * intros _. split; [reflexivity |]. set_solver.
    + destruct (ParserFacts.parse_fields output Hfit) as (d & Hd & _).
      rewrite Hd. run_step.
      split_last. split; [reflexivity |].
      split; [| split; [discriminate |]].
      * repeat constructor; discriminate.
      * intros _. exists output. now rewrite Hd.
  - split_last. split; [reflexivity |].
    split; [| split; [| discriminate]].
    + repeat constructor; discriminate.
    + intros _. split; [reflexivity |]. set_solver.
Qed.

(** With a session open and a count that [int] does not read, the gate
    phase ends in the parser: the exception leaves the block before the
    disconnect. *)
Lemma gate_phase_open (w : World) :
  is_ok (ConnectHandler w) = true →
  output_fits w = false →
  ∃ text,
    send_command w cmd_status = Ok text ∧
    gate_phase w =
      ([ EConnect;
         ELog DEBUG (Msg "Connected successfully to the device.");
         ELog DEBUG (MsgStr "Sending command: " cmd_status);
         ESendCommand cmd_status;
         ELog DEBUG (Msg "Command executed.");
         ELog DEBUG (Msg "Command output:");
         ELog DEBUG (Msg text) ],
       Raise int_limit_error).
Proof.
  unfold gate_phase, connect_to_panorama, send_command_to_panorama,
    output_fits, gate_output.
  destruct (ConnectHandler w) as [[]|]; [intros _ | discriminate].
  destruct (send_command w cmd_status) as [output|e]; [| discriminate].
  intros Hfit. exists output. split; [reflexivity |]. run_step.
  destruct (String.eqb output "") eqn:E.
  { apply String.eqb_eq in E as ->. vm_compute in Hfit. discriminate Hfit. }
  run_step. rewrite (ParserFacts.parse_over_limit output Hfit). reflexivity.
Qed.

(** Without a session nothing of the gate command runs. *)
Lemma gate_phase_not_connected (w : World) (e : exn) :
  ConnectHandler w = Raise e →
  gate_phase w =
    ([EConnect; ELog ERROR (MsgExn "Error connecting to the device: " e);
      ELog ERROR (Msg "Unable to establish connection with the device.")],
     Ok None).
Proof.
  unfold gate_phase, connect_to_panorama. intros ->. reflexivity.
Qed.

(** The three ways [main] goes on after the gate phase: an exception of
    the parser or of the gate condition ends the run, the gate is not
    passed, or it is. *)
Lemma main_raise (w : World) (e : exn) :
  outcome (gate_phase w) ≫= gate_check = Raise e →
  main w = (trace (gate_phase w), Raise e).
Proof.
  unfold main. destruct (outcome (gate_phase w)) as [po|e0] eqn:Hpo.
  - rewrite (bind_ok _ _ _ Hpo). intros H. change (gate_check po = Raise e) in H.
    run_step. rewrite H. now rewrite app_nil_r.
  - rewrite (bind_raise _ _ _ Hpo). intros H. simpl in H.
    now injection H as ->.
Qed.

Lemma main_skipped (w : World) :
  outcome (gate_phase w) ≫= gate_check = Ok false →
  main w = (trace (gate_phase w), Ok GateSkipped).
Proof.
  unfold main. destruct (outcome (gate_phase w)) as [po|e0] eqn:Hpo;
    [| discriminate].
  rewrite (bind_ok _ _ _ Hpo). intros H. change (gate_check po = Ok false) in H.
  run_step. rewrite H. now rewrite app_nil_r.
Qed.

Lemma main_audit (w : World) :
  gate_passes w →
  main w =
    (trace (gate_phase w) ++ trace (audit_phase w),
     match outcome (audit_phase w) with
     | Ok redis_client_list => Ok (Complete redis_client_list)
     | Raise e => Raise e
     end).
Proof.
  unfold gate_passes, main. destruct (outcome (gate_phase w)) as [po|e0] eqn:Hpo;
    [| discriminate].
  rewrite (bind_ok _ _ _ Hpo). intros H. change (gate_check po = Ok true) in H.
  run_step. rewrite H. simpl.
  destruct (audit_phase w) as [t [l|e]]; simpl; now rewrite ?app_nil_r.
Qed.

(** The gate on a dictionary that holds both fields. *)
Lemma gate_check_set (d : gmap string pyval) (status ssl : pyval) :
  d !! "redistribution_status" = Some status →
  d !! "ssl_config" = Some ssl →
  gate_check (Some d) =
    Ok (eq_str status "up" && eq_str ssl "default_certificates").
Proof.
  intros H1 H2. unfold gate_check, lookup_key. rewrite H1. simpl.
  destruct (eq_str status "up"); [| reflexivity]. now rewrite H2.
Qed.

(** The gate on a dictionary that lacks a field it reads. *)
Lemma gate_check_unset (d : gmap string pyval) :
  (d !! "redistribution_status" = None →
   gate_check (Some d) = Raise (KeyError "redistribution_status")) ∧
  (d !! "redistribution_status" = Some (PStr "up") →
   d !! "ssl_config" = None →
   gate_check (Some d) = Raise (KeyError "ssl_config")).
Proof.
  unfold gate_check, lookup_key. split.
  - now intros ->.
  - intros -> ->. reflexivity.
Qed.

Lemma gate_check_true (d : gmap string pyval) :
  gate_check (Some d) = Ok true ↔
  d !! "redistribution_status" = Some (PStr "up") ∧
  d !! "ssl_config" = Some (PStr "default_certificates").
Proof.
  unfold gate_check, lookup_key. split.
  - destruct (d !! "redistribution_status") as [st|]; simpl; [| discriminate].
    destruct (eq_str st "up") eqn:E1; [| discriminate].
    destruct (d !! "ssl_config") as [ssl|]; simpl; [| discriminate].
    intros [= E2].
    destruct st; try discriminate. destruct ssl; try discriminate.
    apply String.eqb_eq in E1 as ->. apply String.eqb_eq in E2 as ->. now split.
  - intros [-> ->]. reflexivity.
Qed.

(** The gate phase only drives the text session and logs. *)
Lemma gate_phase_events (w : World) : Forall gate_event (trace (gate_phase w)).
Proof.
  unfold gate_phase, connect_to_panorama, send_command_to_panorama.
  destruct (ConnectHandler w) as [[]|]; run_step;
    [| repeat constructor].
  destruct (send_command w cmd_status) as [output|e]; run_step;
    [| repeat constructor].
  destruct (String.eqb output ""); run_step; [repeat constructor |].
  destruct (parse_status_command_output output) as [d|e]; run_step;
    repeat constructor.
Qed.

(** The gate phase reads the world only through the text session. *)
Lemma gate_phase_ext (w1 w2 : World) :
  ConnectHandler w1 = ConnectHandler w2 →
  (∀ c, send_command w1 c = send_command w2 c) →
  gate_phase w1 = gate_phase w2.
Proof.
  intros H1 H2.
  unfold gate_phase, connect_to_panorama, send_command_to_panorama.
  now rewrite H1, H2.
Qed.

End GateFacts.

(** ** The audit phase *)

Module AuditFacts.
Import RunFacts GateFacts.

Lemma loop_event_mono (lo hi lo' hi' : nat) (e : event) :
  (lo' ≤ lo)%nat → (hi ≤ hi')%nat → loop_event lo hi e → loop_event lo' hi' e.
Proof. destruct e; simpl; try tauto. lia. Qed.

Lemma collect_events (w : World) (i : nat) (firewall : Firewall) :
  Forall (loop_event i (S i)) (trace (collect w i firewall)).
Proof.
  unfold collect.
  destruct (firewall_op w i firewall cmd_redist_clients) as [r1|e1]; run_step.
  - destruct (firewall_op w i firewall cmd_system_info) as [r2|e2]; run_step.
    + repeat constructor; simpl; lia.
    + repeat constructor; simpl; lia.
  - repeat constructor; simpl; lia.
Qed.

Lemma collect_loop_cons (w : World) (i : nat) (firewall : Firewall)
    (firewalls : list Firewall) (acc : list (list (string * pyval))) :
  collect_loop w i (firewall :: firewalls) acc =
    match outcome (collect w i firewall) with
    | Ok fw =>
        (trace (collect w i firewall) ++
           trace (collect_loop w (S i) firewalls (acc ++ [fw])),
         outcome (collect_loop w (S i) firewalls (acc ++ [fw])))
    | Raise e => (trace (collect w i firewall), Raise e)
    end.
Proof.
  simpl. destruct (outcome (collect w i firewall)) as [fw|e] eqn:E.
  - now rewrite (bind_ok _ _ _ E).
  - now rewrite (bind_raise _ _ _ E).
Qed.

#[local] Arguments register_clients : simpl never.
#[local] Arguments collect_loop : simpl never.
#[local] Arguments collect : simpl never.

Lemma collect_loop_events (w : World) (firewalls : list Firewall) (i : nat)
    (acc : list (list (string * pyval))) :
  Forall (loop_event i (i + length firewalls))
    (trace (collect_loop w i firewalls acc)).
Proof.
  revert i acc; induction firewalls as [|fw fws IH]; intros i acc.
  - constructor.
  - rewrite collect_loop_cons. pose proof (collect_events w i fw) as Hc.
    destruct (outcome (collect w i fw)) as [f|e]; simpl.
    + apply Forall_app. split.
      * eapply Forall_impl; [exact Hc |]. intros e. apply loop_event_mono; lia.
      * eapply Forall_impl; [apply IH |]. intros e. apply loop_event_mono; lia.
    + eapply Forall_impl; [exact Hc |]. intros e'. apply loop_event_mono; lia.
Qed.

(** The loop stops at the first child whose collection raises: what
    follows the events of the children before it is the failing
    collection, and nothing else. *)
Lemma collect_loop_stops (w : World) (pre : list Firewall) (firewall : Firewall)
    (post : list Firewall) (e : exn) (i : nat)
    (acc : list (list (string * pyval))) :
  (∀ j fwj, pre !! j = Some fwj →
            is_ok (outcome (collect w (i + j) fwj)) = true) →
  outcome (collect w (i + length pre) firewall) = Raise e →
  ∃ t,
    collect_loop w i (pre ++ firewall :: post) acc =
      (t ++ trace (collect w (i + length pre) firewall), Raise e) ∧
    Forall (loop_event i (i + length pre)) t.
Proof.
  revert i acc; induction pre as [|fw0 pre IH]; intros i acc Hpre Hk.
  - simpl app. rewrite collect_loop_cons. simpl length in *.
    rewrite Nat.add_0_r in *. rewrite Hk. exists []. now split.
  - simpl app. rewrite collect_loop_cons.
    pose proof (Hpre 0%nat fw0 eq_refl) as H0. rewrite Nat.add_0_r in H0.
    pose proof (collect_events w i fw0) as Hc.
    destruct (outcome (collect w i fw0)) as [f|]; [| discriminate].
    destruct (IH (S i) (acc ++ [f])) as (t & Ho & Ht).
    + intros j fwj Hj. replace (S i + j)%nat with (i + S j)%nat by lia.
      now apply Hpre.
    + simpl length in Hk. now replace (S i + length pre)%nat
        with (i + S (length pre))%nat by lia.
    + exists (trace (collect w i fw0) ++ t). rewrite Ho. simpl.
      replace (i + S (length pre))%nat with (S i + length pre)%nat by lia.
      split; [now rewrite app_assoc |].
      apply Forall_app. split.
      * eapply Forall_impl; [exact Hc |]. intros ev. apply loop_event_mono; lia.
      * eapply Forall_impl; [exact Ht |]. intros ev.
        apply loop_event_mono; simpl; lia.
Qed.

(** A collection that raises ends on one of its two queries. *)
Lemma collect_raise_last (w : World) (i : nat) (firewall : Firewall) (e : exn) :
  outcome (collect w i firewall) = Raise e →
  ∃ t cmd, trace (collect w i firewall) = t ++ [EFirewallOp i firewall cmd].
Proof.
  unfold collect.
  destruct (firewall_op w i firewall cmd_redist_clients) as [r1|e1]; run_step.
  - destruct (firewall_op w i firewall cmd_system_info) as [r2|e2]; run_step.
    + intros _.
      now exists [EFirewallOp i firewall cmd_redist_clients; ELog DEBUG (MsgVal "" r1)],
        cmd_system_info.
    + intros _.
      now exists [EFirewallOp i firewall cmd_redist_clients; ELog DEBUG (MsgVal "" r1)],
        cmd_system_info.
  - intros _. now exists [], cmd_redist_clients.
Qed.

(** When every collection succeeds the loop appends one record per child,
    in order. *)
Lemma collect_loop_ok (w : World) (firewalls : list Firewall) (i : nat)
    (acc : list (list (string * pyval))) :
  (∀ j fwj, firewalls !! j = Some fwj →
            is_ok (outcome (collect w (i + j) fwj)) = true) →
  ∃ facts,
    outcome (collect_loop w i firewalls acc) = Ok (acc ++ facts) ∧
    length facts = length firewalls ∧
    ∀ j fwj, firewalls !! j = Some fwj →
      ∃ fw, facts !! j = Some fw ∧ outcome (collect w (i + j) fwj) = Ok fw.
Proof.
  revert i acc; induction firewalls as [|fw0 fws IH]; intros i acc Hall.
  - exists []. simpl. rewrite app_nil_r. repeat split. intros j fwj [=].
  - rewrite collect_loop_cons.
    pose proof (Hall 0%nat fw0 eq_refl) as H0. rewrite Nat.add_0_r in H0.
    destruct (outcome (collect w i fw0)) as [f|] eqn:E; [| discriminate]. simpl.
    destruct (IH (S i) (acc ++ [f])) as (facts & Ho & Hl & Hf).
    + intros j fwj Hj. replace (S i + j)%nat with (i + S j)%nat by lia.
      now apply Hall.
    + exists (f :: facts). rewrite Ho, <- app_assoc. simpl.
      repeat split; [now rewrite Hl |].
      intros [|j] fwj Hj; simpl in *.
      * injection Hj as <-. exists f. now rewrite Nat.add_0_r.
      * destruct (Hf j fwj Hj) as (fw & ? & ?). exists fw.
        now replace (i + S j)%nat with (S i + j)%nat by lia.
Qed.

(** The loop reads the world only through [firewall_op]. *)
Lemma collect_loop_ext (w1 w2 : World) (firewalls : list Firewall) (i : nat)
    (acc : list (list (string * pyval))) :
  (∀ i firewall cmd, firewall_op w1 i firewall cmd = firewall_op w2 i firewall cmd) →
  collect_loop w1 i firewalls acc = collect_loop w2 i firewalls acc.
Proof.
  intros H. revert i acc; induction firewalls as [|fw fws IH]; intros i acc.
  - reflexivity.
  - rewrite !collect_loop_cons.
    assert (collect w1 i fw = collect w2 i fw) as ->
      by (unfold collect; now rewrite !H).
    destruct (outcome (collect w2 i fw)); [now rewrite IH | reflexivity].
Qed.

Lemma members_inv (w : World) (firewalls : list Firewall) :
  members w = Ok firewalls →
  ∃ list_of_redist_clients,
    pan_op w cmd_redist_clients = Ok list_of_redist_clients ∧
    register_clients {| children := [] |} list_of_redist_clients =
      Ok {| children := firewalls |}.
Proof.
  unfold members. destruct (pan_op w cmd_redist_clients) as [resp|]; simpl;
    [| discriminate].
  destruct (register_clients _ resp) as [[fws]|] eqn:E; simpl; [| discriminate].
  intros [= ->]. now exists resp.
Qed.

(** The audit phase, once it gets to the loop. *)
Lemma audit_phase_collection (w : World) (list_of_redist_clients : pyval)
    (firewalls : list Firewall) :
  validation_survived w = true →
  pan_op w cmd_redist_clients = Ok list_of_redist_clients →
  register_clients {| children := [] |} list_of_redist_clients =
    Ok {| children := firewalls |} →
  is_ok (pan_op w cmd_devices_connected) = true →
  audit_phase w =
    (audit_prefix w list_of_redist_clients firewalls ++
       trace (collect_loop w 0 firewalls []) ++
       audit_suffix (outcome (collect_loop w 0 firewalls [])),
     outcome (collect_loop w 0 firewalls [])).
Proof.
  unfold validation_survived, audit_phase, validate_creds,
    enumerate_and_collect, audit_prefix.
  intros Hv Hop Hreg Hconn. cbv zeta.
  rewrite Hop.
  destruct (pan_op w cmd_devices_connected) as [conn|]; [| discriminate].
  destruct (refresh_system_info w) as [[]|e']; run_step;
    rewrite ?Hv; run_step; rewrite Hreg; run_step;
    destruct (collect_loop w 0 firewalls []) as [t [l|e]]; simpl;
    rewrite ?app_nil_r; reflexivity.
Qed.

Lemma main_collection (w : World) (firewalls : list Firewall) :
  reaches_collection w firewalls →
  ∃ list_of_redist_clients,
    pan_op w cmd_redist_clients = Ok list_of_redist_clients ∧
    main w =
      (trace (gate_phase w) ++
         audit_prefix w list_of_redist_clients firewalls ++
         trace (collect_loop w 0 firewalls []) ++
         audit_suffix (outcome (collect_loop w 0 firewalls [])),
       match outcome (collect_loop w 0 firewalls []) with
       | Ok redis_client_list => Ok (Complete redis_client_list)
       | Raise e => Raise e
       end).
Proof.
  intros (Hg & Hv & Hm & Hc).
  destruct (members_inv w firewalls Hm) as (resp & Hop & Hreg).
  exists resp. split; [exact Hop |].
  rewrite (main_audit w Hg).
  now rewrite (audit_phase_collection w resp firewalls Hv Hop Hreg Hc).
Qed.

(** The audit phase never touches the text session. *)
Lemma audit_phase_events (w : World) : Forall audit_event (trace (audit_phase w)).
Proof.
  unfold audit_phase, validate_creds, enumerate_and_collect. cbv zeta.
  assert (Forall audit_event
            (trace (enumerate_and_collect w {| children := [] |}))) as Hrest.
  { unfold enumerate_and_collect.
    destruct (pan_op w cmd_redist_clients) as [resp|]; run_step;
      [| repeat constructor].
    destruct (register_clients _ resp) as [pan|]; run_step;
      [| repeat constructor].
    destruct (pan_op w cmd_devices_connected) as [conn|]; run_step;
      [| repeat constructor].
    pose proof (collect_loop_events w (children pan) 0 []) as Hl.
    destruct (collect_loop w 0 (children pan) []) as [t [l|e]]; simpl in *.
    - repeat (constructor; [exact I |]).
      apply Forall_app. split; [| repeat constructor].
      eapply Forall_impl; [exact Hl |]. now intros [].
    - repeat (constructor; [exact I |]).
      eapply Forall_impl; [exact Hl |]. now intros []. }
  unfold enumerate_and_collect in Hrest.
  destruct (refresh_system_info w) as [[]|e]; run_step.
  - match goal with
    | H : Forall _ (trace ?m) |- context [let '(_, _) := ?m' in _] =>
        change m' with m; destruct m as [t r]
    end.
    simpl in *. now repeat constructor.
  - destruct (is_PanDeviceError e); [| repeat constructor].
    match goal with
    | H : Forall _ (trace ?m) |- context [let '(_, _) := ?m' in _] =>
        change m' with m; destruct m as [t r]
    end.
    simpl in *. now repeat constructor.
Qed.

(** After the validation the audit phase reads the world through the
    enumeration reply, whether the connected-devices query answers, and
    [firewall_op]. *)
Lemma enumerate_and_collect_ext (w1 w2 : World) (pan : Panorama) :
  pan_op w1 cmd_redist_clients = pan_op w2 cmd_redist_clients →
  pan_op w1 cmd_devices_connected = pan_op w2 cmd_devices_connected ∨
    (is_ok (pan_op w1 cmd_devices_connected) = true ∧
     is_ok (pan_op w2 cmd_devices_connected) = true) →
  (∀ i firewall cmd, firewall_op w1 i firewall cmd = firewall_op w2 i firewall cmd) →
  enumerate_and_collect w1 pan = enumerate_and_collect w2 pan.
Proof.
  intros H1 H2 H3. unfold enumerate_and_collect. rewrite H1.
  destruct (pan_op w2 cmd_redist_clients) as [resp|]; run_step; [| reflexivity].
  destruct (register_clients pan resp) as [pan'|]; run_step; [| reflexivity].
  rewrite (collect_loop_ext w1 w2 _ _ _ H3).
  destruct H2 as [-> | [Ha Hb]]; [reflexivity |].
  destruct (pan_op w1 cmd_devices_connected); [| discriminate].
  destruct (pan_op w2 cmd_devices_connected); [| discriminate].
  reflexivity.
Qed.

(** The first thing after the validation is the enumeration query. *)
Lemma enumerate_and_collect_head (w : World) (pan : Panorama) :
  ∃ t, trace (enumerate_and_collect w pan) = EPanOp cmd_redist_clients :: t.
Proof.
  unfold enumerate_and_collect.
  destruct (pan_op w cmd_redist_clients) as [resp|]; run_step; [| eauto].
  destruct (register_clients pan resp) as [pan'|]; run_step; [| eauto].
  destruct (pan_op w cmd_devices_connected) as [conn|]; run_step; [| eauto].
  destruct (collect_loop w 0 (children pan') []) as [t [l|e]]; simpl; eauto.
Qed.

(** A failing child has a first failing child at or before it. *)
Lemma first_failure (w : World) (firewalls : list Firewall) (i k : nat)
    (firewall : Firewall) (e : exn) :
  firewalls !! k = Some firewall →
  outcome (collect w (i + k) firewall) = Raise e →
  ∃ pre firewall' post e',
    firewalls = pre ++ firewall' :: post ∧ (length pre ≤ k)%nat ∧
    (∀ j fwj, pre !! j = Some fwj →
              is_ok (outcome (collect w (i + j) fwj)) = true) ∧
    outcome (collect w (i + length pre) firewall') = Raise e'.
Proof.
  revert i k; induction firewalls as [|fw0 fws IH]; intros i k Hk He;
    [discriminate |].
  destruct (outcome (collect w i fw0)) as [f|e0] eqn:E0.
  - destruct k as [|k].
    { injection Hk as <-. rewrite Nat.add_0_r in He. congruence. }
    simpl in Hk. replace (i + S k)%nat with (S i + k)%nat in He by lia.
    destruct (IH (S i) k Hk He) as (pre & fw' & post & e' & -> & Hl & Hp & Hf).
    exists (fw0 :: pre), fw', post, e'. simpl. repeat split; [lia | |].
    + intros [|j] fwj Hj; simpl in Hj.
      * injection Hj as <-. now rewrite Nat.add_0_r, E0.
      * replace (i + S j)%nat with (S i + j)%nat by lia. now apply Hp.
    + now replace (i + S (length pre))%nat with (S i + length pre)%nat by lia.
  - exists [], fw0, fws, e0. simpl. repeat split; [lia | |].
    + intros j fwj [=].
    + now rewrite Nat.add_0_r.
Qed.

(** A system-info reply without one of the fields the loop body reads
    makes the collection raise. *)
Lemma collect_omits (w : World) (i : nat) (firewall : Firewall)
    (field : string) :
  field ∈ required_fields → system_info_omits w i firewall field →
  ∃ e, outcome (collect w i firewall) = Raise e.
Proof.
  intros Hin (system_info & r & items & Hop & Hr & Hsys & Hf).
  unfold collect. rewrite Hop.
  destruct (firewall_op w i firewall cmd_redist_clients) as [r1|e1];
    run_step; [| eauto].
  rewrite Hr. simpl. rewrite Hsys. simpl.
  unfold required_fields in Hin.
  repeat (apply elem_of_cons in Hin as [-> | Hin]);
    [.. | now apply elem_of_nil in Hin];
    rewrite ?Hf; simpl;
    repeat match goal with
      | |- context [assoc ?k items] => destruct (assoc k items); simpl
      end;
    eauto.
Qed.

Lemma gate_event_quiet (k : nat) (e : event) :
  gate_event e → is_print e = false ∧ queries_after k e = false.
Proof. now destruct e. Qed.

Lemma audit_prefix_quiet (w : World) (resp : pyval) (firewalls : list Firewall)
    (k : nat) :
  Forall (fun e => is_print e = false ∧ queries_after k e = false)
    (audit_prefix w resp firewalls).
Proof.
  unfold audit_prefix. destruct (refresh_system_info w); now repeat constructor.
Qed.

Lemma loop_event_quiet (lo hi k : nat) (e : event) :
  (hi ≤ S k)%nat → loop_event lo hi e →
  is_print e = false ∧ queries_after k e = false.
Proof.
  destruct e; simpl; try tauto. intros ? [? ?]. split; [reflexivity |].
  apply Nat.ltb_ge. lia.
Qed.

(** The run, when the loop meets its first failing child. *)
Lemma main_stops (w : World) (pre : list Firewall) (firewall : Firewall)
    (post : list Firewall) (e : exn) :
  reaches_collection w (pre ++ firewall :: post) →
  (∀ j fwj, pre !! j = Some fwj → is_ok (outcome (collect w j fwj)) = true) →
  outcome (collect w (length pre) firewall) = Raise e →
  ∃ resp t,
    main w =
      (trace (gate_phase w) ++
         audit_prefix w resp (pre ++ firewall :: post) ++
         t ++ trace (collect w (length pre) firewall),
       Raise e) ∧
    Forall (loop_event 0 (length pre)) t.
Proof.
  intros Hr Hpre Hk.
  destruct (main_collection w _ Hr) as (resp & _ & Hm).
  destruct (collect_loop_stops w pre firewall post e 0 [] Hpre Hk)
    as (t & Hl & Ht).
  exists resp, t. split; [| exact Ht].
  rewrite Hm, Hl. simpl. now rewrite app_nil_r.
Qed.

(** The loop over a list of entries that all have a host registers one
    child per entry, in order. *)
Lemma add_each_hosts (entries : list pyval) (hosts : list pyval)
    (pan : Panorama) :
  Forall2 (fun each host => getitem each "host" = Ok host) entries hosts →
  add_each pan entries =
    Ok {| children := children pan ++ map (fun h => {| serial := h |}) hosts |}.
Proof.
  intros H. revert pan. induction H as [|each host entries hosts He _ IH];
    intros pan; simpl.
  - rewrite app_nil_r. now destruct pan.
  - rewrite He. simpl. rewrite IH. simpl. now rewrite <- app_assoc.
Qed.

End AuditFacts.

(** * The claims *)

(** The example of the specification: the three lines give the three
    fields, transformed. *)
Example parse_status_text :
  parse_status_command_output Scenario.status_text =
    Ok (<["redistribution_status" := PStr "up"]>
          (<["ssl_config" := PStr "default_certificates"]>
             (<["number_of_clients" := PInt 3]> ∅))).
Proof. vm_compute. reflexivity. Qed.

(** Text that matches no pattern gives the empty dictionary. *)
Example parse_unrelated_text :
  parse_status_command_output "" = Ok ∅ ∧
  parse_status_command_output "Invalid syntax." = Ok ∅.
Proof. split; vm_compute; reflexivity. Qed.

(** A single entry in the enumeration reply: one child, one record. *)
Example single_entry_run :
  members Scenario.one_member = Ok [{| serial := PStr "001" |}] ∧
  ∃ fw, outcome (main Scenario.one_member) = Ok (Complete [fw]).
Proof. split; [reflexivity |]. eexists. vm_compute. reflexivity. Qed.

(** The three lines with a count of 4301 digits: every pattern is found,
    and the conversion of the count raises. *)
Lemma overlong_status_text_parse :
  capture pat_status Scenario.overlong_status_text = Some "up" ∧
  capture pat_ssl_config Scenario.overlong_status_text =
    Some "Default certificates" ∧
  capture pat_clients Scenario.overlong_status_text =
    Some (Scenario.ones (S int_max_str_digits)) ∧
  parse_status_command_output Scenario.overlong_status_text =
    Raise int_limit_error.
Proof. repeat split; vm_compute; reflexivity. Qed.

(** C7, as stated, fails: a status text in which the three patterns match,
    with a client count of 4301 digits, gives no record; the conversion of
    the count raises [ValueError]. *)
Lemma overlong_count_gives_no_record :
  Re.occurs pat_status Scenario.overlong_status_text ∧
  Re.occurs pat_ssl_config Scenario.overlong_status_text ∧
  Re.occurs pat_clients Scenario.overlong_status_text ∧
  parse_status_command_output Scenario.overlong_status_text =
    Raise int_limit_error ∧
  ¬ (∃ d, parse_status_command_output Scenario.overlong_status_text = Ok d).
Proof.
  destruct overlong_status_text_parse as (E1 & E2 & E3 & Hp).
  split; [| split; [| split; [| split]]].
  - exact (ParserFacts.capture_occurs _ _ _ E1).
  - exact (ParserFacts.capture_occurs _ _ _ E2).
  - exact (ParserFacts.capture_occurs _ _ _ E3).
  - exact Hp.
  - intros [d Hd]. rewrite Hp in Hd. discriminate.
Qed.

(** C7, amended.  For every status text in which the three patterns match
    and the digits captured for the client count number at most 4300,
    [parse_status_command_output] returns a dictionary with the three
    fields set: the status is the captured word, [ssl_config] is the
    captured text lowercased with every space replaced by an underscore
    (so it holds no space), and [number_of_clients] is the integer the
    captured digits stand for in decimal notation. *)
Theorem parse_all_three_fields (output : string) :
  Re.occurs pat_status output →
  Re.occurs pat_ssl_config output →
  Re.occurs pat_clients output →
  count_fits output = true →
  ∃ status ssl clients,
    capture pat_status output = Some status ∧
    capture pat_ssl_config output = Some ssl ∧
    capture pat_clients output = Some clients ∧
    parse_status_command_output output =
      Ok (<["redistribution_status" := PStr status]>
            (<["ssl_config" := PStr (Text.replace_space (Text.lower ssl))]>
               (<["number_of_clients" := PInt (digits_value clients)]> ∅))) ∧
    Text.all (fun c => negb (Ascii.eqb c " "))
      (Text.replace_space (Text.lower ssl)) = true ∧
    clients ≠ "" ∧ Text.all Text.is_digit clients = true.
Proof.
  intros H1 H2 H3 Hfit.
  destruct (ParserFacts.capture_Some _ _ _ _ H1) as (status & E1 & _ & _).
  destruct (ParserFacts.capture_Some _ _ _ _ H2) as (ssl & E2 & _ & _).
  destruct (ParserFacts.capture_Some _ _ _ _ H3) as (clients & E3 & Hn & Hd).
  destruct (ParserFacts.parse_fields output Hfit)
    as (d & Hd' & F1 & F2 & F3 & F4).
  fold pat_status in E1. fold pat_ssl_config in E2. fold pat_clients in E3.
  unfold capture in *. rewrite E1 in *. rewrite E2 in *. rewrite E3 in *.
  simpl in F1, F2, F3.
  rewrite ParserFacts.decimal_value in F3.
  change (0 * 10 ^ Z.of_nat (String.length clients) + digits_value clients)%Z
    with (digits_value clients) in F3.
  exists status, ssl, clients. repeat split; try assumption.
  - rewrite Hd'. f_equal. apply map_eq. intros k.
    destruct (decide (k = "redistribution_status")) as [-> |];
      [now rewrite lookup_insert_eq |].
    rewrite lookup_insert_ne by congruence.
    destruct (decide (k = "ssl_config")) as [-> |];
      [now rewrite lookup_insert_eq |].
    rewrite lookup_insert_ne by congruence.
    destruct (decide (k = "number_of_clients")) as [-> |];
      [now rewrite lookup_insert_eq |].
    rewrite lookup_insert_ne by congruence.
    rewrite lookup_empty. now apply F4.
  - unfold Text.replace_space. apply TextFacts.all_map_str. intros c.
    destruct (Ascii.eqb c " ") eqn:E; [reflexivity | now rewrite E].
Qed.

Lemma parse_all_three_fields_witness :
  count_fits Scenario.status_text = true ∧
  parse_status_command_output Scenario.status_text =
    Ok (<["redistribution_status" := PStr "up"]>
          (<["ssl_config" := PStr "default_certificates"]>
             (<["number_of_clients" := PInt 3]> ∅))).
Proof.
  split; [reflexivity |].
  destruct (parse_all_three_fields Scenario.status_text)
    as (status & ssl & clients & E1 & E2 & E3 & Hp & _);
    try (apply ReFacts.search_occurs; vm_compute; eauto); [reflexivity |].
  vm_compute in E1. vm_compute in E2. vm_compute in E3.
  injection E1 as <-. injection E2 as <-. injection E3 as <-.
  rewrite Hp. reflexivity.
Defined.

(** C8, as stated, fails: on a text that holds a client count of 4301
    digits the parser raises [ValueError]. *)
Lemma overlong_count_raises :
  parse_status_command_output Scenario.overlong_count_text =
    Raise int_limit_error ∧
  ¬ (∃ d, parse_status_command_output Scenario.overlong_count_text = Ok d).
Proof.
  assert (parse_status_command_output Scenario.overlong_count_text =
            Raise int_limit_error) as H by (vm_compute; reflexivity).
  split; [exact H |]. intros [d Hd]. rewrite H in Hd. discriminate.
Qed.

(** C8, amended.  On every input string in which the digits captured for
    the client count, if any, number at most 4300,
    [parse_status_command_output] returns a dictionary, never an exception,
    and each of the three fields is absent exactly when its pattern matches
    nowhere in the text. *)
Theorem parse_total (output : string) :
  count_fits output = true →
  ∃ d, parse_status_command_output output = Ok d ∧
    (d !! "redistribution_status" = None ↔ ¬ Re.occurs pat_status output) ∧
    (d !! "ssl_config" = None ↔ ¬ Re.occurs pat_ssl_config output) ∧
    (d !! "number_of_clients" = None ↔ ¬ Re.occurs pat_clients output).
Proof.
  intros Hfit.
  destruct (ParserFacts.parse_fields output Hfit) as (d & Hd & F1 & F2 & F3 & _).
  exists d. split; [exact Hd |].
  rewrite F1, F2, F3, !ReFacts.search_None. unfold capture.
  repeat split; intros H.
  all: try (destruct (Re.search _ output) as [m|] eqn:E; [| reflexivity];
            apply ReFacts.search_groups in E as Hl;
            destruct m as [|g m]; [discriminate Hl | discriminate H]).
  all: now rewrite H.
Qed.

Lemma parse_total_witness :
  (∃ d, parse_status_command_output "" = Ok d ∧
     (d !! "redistribution_status" = None ↔ ¬ Re.occurs pat_status "") ∧
     (d !! "ssl_config" = None ↔ ¬ Re.occurs pat_ssl_config "") ∧
     (d !! "number_of_clients" = None ↔ ¬ Re.occurs pat_clients "")) ∧
  (∃ d, parse_status_command_output "Redistribution service: up" = Ok d ∧
     (d !! "redistribution_status" = None ↔
        ¬ Re.occurs pat_status "Redistribution service: up") ∧
     (d !! "ssl_config" = None ↔
        ¬ Re.occurs pat_ssl_config "Redistribution service: up") ∧
     (d !! "number_of_clients" = None ↔
        ¬ Re.occurs pat_clients "Redistribution service: up")).
Proof.
  split.
  - apply (parse_total ""). reflexivity.
  - apply (parse_total "Redistribution service: up"). reflexivity.
Defined.

(** C1 (where the script departs from the claim).  With both fields set the
    gate is the stated function of them ([GateFacts.gate_check_set],
    [GateFacts.gate_check_true]); with a field unset the subscript raises
    instead of skipping.  Status text without an SSL line ends the run with
    [KeyError('ssl_config')], and text matching no pattern with
    [KeyError('redistribution_status')]; neither run ends as GateSkipped. *)
Theorem gate_unset_field_raises :
  outcome (main Scenario.ssl_line_missing) = Raise (KeyError "ssl_config") ∧
  outcome (main Scenario.unrelated_output) =
    Raise (KeyError "redistribution_status") ∧
  gate_check (Some ∅) = Raise (KeyError "redistribution_status").
Proof. repeat split; vm_compute; reflexivity. Qed.

(** C3 (where the script departs from the claim).  When the session is open
    and the gate command gives no output (an empty string, or the command
    failed), the script logs that no output was received and makes no API
    call, but the run does not end as GateSkipped: [parsed_output] was never
    assigned and the gate condition raises [NameError]. *)
Theorem no_output_raises_name_error (w : World) :
  is_ok (ConnectHandler w) = true →
  truthy (gate_output w) = false →
  outcome (main w) = Raise (NameError "parsed_output") ∧
  ELog DEBUG (Msg "No output received from the command.") ∈ trace (main w) ∧
  Forall (fun e => api_event e = false) (trace (main w)).
Proof.
  intros Hc Hn.
  destruct (GateFacts.gate_phase_closed w Hc (GateFacts.no_output_fits w Hn))
    as (t & po & Hg & Ht & Hno & _).
  destruct (Hno Hn) as [-> Hlog].
  assert (main w = (t ++ [EDisconnect], Raise (NameError "parsed_output")))
    as -> by (rewrite (GateFacts.main_raise w (NameError "parsed_output"));
              now rewrite Hg).
  simpl. repeat split.
  - apply elem_of_app. now left.
  - apply Forall_app. split; [| now repeat constructor].
    eapply Forall_impl; [exact Ht |]. now intros e [_ ?].
Qed.

Lemma no_output_raises_name_error_witness :
  outcome (main Scenario.no_output) = Raise (NameError "parsed_output") ∧
  ELog DEBUG (Msg "No output received from the command.")
    ∈ trace (main Scenario.no_output) ∧
  Forall (fun e => api_event e = false) (trace (main Scenario.no_output)).
Proof.
  apply (no_output_raises_name_error Scenario.no_output); reflexivity.
Defined.

(** C9, as stated, fails: the session is opened, the gate command gives
    output with a client count of 4301 digits, the parser raises and the
    run ends with that exception right after the output was logged; the
    session is never closed. *)
Lemma overlong_count_leaves_session_open :
  is_ok (ConnectHandler Scenario.overlong_count) = true ∧
  main Scenario.overlong_count =
    ([ EConnect;
       ELog DEBUG (Msg "Connected successfully to the device.");
       ELog DEBUG (MsgStr "Sending command: " cmd_status);
       ESendCommand cmd_status;
       ELog DEBUG (Msg "Command executed.");
       ELog DEBUG (Msg "Command output:");
       ELog DEBUG (Msg Scenario.overlong_status_text) ],
     Raise int_limit_error) ∧
  EDisconnect ∉ trace (main Scenario.overlong_count).
Proof.
  split; [reflexivity |].
  assert (output_fits Scenario.overlong_count = false) as Hfit
    by (vm_compute; reflexivity).
  destruct (GateFacts.gate_phase_open Scenario.overlong_count eq_refl Hfit)
    as (text & Ht & Hg).
  change (Ok Scenario.overlong_status_text = Ok text) in Ht.
  injection Ht as <-.
  assert (outcome (gate_phase Scenario.overlong_count) ≫= gate_check =
            Raise int_limit_error) as Hr by now rewrite Hg.
  rewrite (GateFacts.main_raise _ _ Hr), Hg. cbn [trace fst].
  split; [reflexivity |].
  intros Hin.
  repeat (apply elem_of_cons in Hin as [Hin | Hin]; [discriminate Hin |]).
  now apply elem_of_nil in Hin.
Qed.

(** C9, amended.  In every run in which the text session is opened and the
    parser does not raise (the output of the gate command, if there is
    any, has a client count of at most 4300 digits), whatever the gate
    command does (output, no output, failure), the trace holds exactly one
    disconnect, and no API call comes before it. *)
Theorem session_closed_once (w : World) :
  is_ok (ConnectHandler w) = true →
  output_fits w = true →
  ∃ before after,
    trace (main w) = before ++ EDisconnect :: after ∧
    (EDisconnect ∉ before) ∧ (EDisconnect ∉ after) ∧
    Forall (fun e => api_event e = false) before.
Proof.
  intros Hc Hfit.
  destruct (GateFacts.gate_phase_closed w Hc Hfit) as (t & po & Hg & Ht & _).
  assert (EDisconnect ∉ t) as Hnot.
  { intros Hin. rewrite Forall_forall in Ht. now destruct (Ht _ Hin). }
  assert (Forall (fun e => api_event e = false) t) as Hapi.
  { eapply Forall_impl; [exact Ht |]. now intros e [_ ?]. }
  assert (∃ after, trace (main w) = (t ++ [EDisconnect]) ++ after ∧
                   EDisconnect ∉ after) as (after & Ha & Hafter).
  { destruct (gate_check po) as [[]|e] eqn:E.
    - exists (trace (audit_phase w)). split.
      + rewrite (GateFacts.main_audit w); [now rewrite Hg |].
        unfold gate_passes. now rewrite Hg.
      + intros Hin. pose proof (AuditFacts.audit_phase_events w) as Hev.
        rewrite Forall_forall in Hev. exact (Hev _ Hin).
    - exists []. split; [| apply not_elem_of_nil].
      rewrite (GateFacts.main_skipped w); [now rewrite Hg, app_nil_r |].
      now rewrite Hg.
    - exists []. split; [| apply not_elem_of_nil].
      rewrite (GateFacts.main_raise w e); [now rewrite Hg, app_nil_r |].
      now rewrite Hg. }
  exists t, after. rewrite Ha, <- app_assoc. now repeat split.
Qed.

Lemma session_closed_once_witness :
  ERefreshSystemInfo ∈ trace (main Scenario.three_members) ∧
  (∃ before after,
     trace (main Scenario.three_members) = before ++ EDisconnect :: after ∧
     (EDisconnect ∉ before) ∧ (EDisconnect ∉ after) ∧
     Forall (fun e => api_event e = false) before) ∧
  (∃ before after,
     trace (main Scenario.no_output) = before ++ EDisconnect :: after ∧
     (EDisconnect ∉ before) ∧ (EDisconnect ∉ after) ∧
     Forall (fun e => api_event e = false) before) ∧
  (∃ before after,
     trace (main Scenario.command_fails) = before ++ EDisconnect :: after ∧
     (EDisconnect ∉ before) ∧ (EDisconnect ∉ after) ∧
     Forall (fun e => api_event e = false) before).
Proof.
  split; [| split; [| split]].
  - apply (list_elem_of_lookup_2 _ 9). vm_compute. reflexivity.
  - apply (session_closed_once Scenario.three_members);
      [reflexivity | vm_compute; reflexivity].
  - apply (session_closed_once Scenario.no_output); reflexivity.
  - apply (session_closed_once Scenario.command_fails); reflexivity.
Defined.

(** C2, as stated, fails: with three members and the system-info query of
    member #2 failing, the run ends with that exception; nothing is logged
    at error level, member #3 is never queried and no table is printed. *)
Lemma second_member_failure_ends_run :
  outcome (main Scenario.second_member_fails) =
    Raise (PanDeviceError "timed out") ∧
  ¬ (∃ report, outcome (main Scenario.second_member_fails) =
                 Ok (Complete report) ∧ length report = 2%nat) ∧
  List.filter is_error_log (trace (main Scenario.second_member_fails)) = [] ∧
  List.filter (queries_after 1) (trace (main Scenario.second_member_fails)) = [] ∧
  printed (trace (main Scenario.second_member_fails)) = [].
Proof.
  assert (outcome (main Scenario.second_member_fails) =
            Raise (PanDeviceError "timed out")) as H
    by (vm_compute; reflexivity).
  split; [exact H |]. split.
  - intros (report & Hr & _). rewrite H in Hr. discriminate.
  - vm_compute. repeat split.
Qed.

(** C2, amended.  In every run over the enumerated members in which the
    collection of some member fails, the exception of the first failing
    member is not caught: the run ends with it, its last event is a query
    to that member (nothing is logged or printed afterwards), no later
    member is queried and no table is printed. *)
Theorem first_failure_ends_run (w : World) (pre : list Firewall)
    (firewall : Firewall) (post : list Firewall) (e : exn) :
  reaches_collection w (pre ++ firewall :: post) →
  (∀ j fwj, pre !! j = Some fwj → is_ok (outcome (collect w j fwj)) = true) →
  outcome (collect w (length pre) firewall) = Raise e →
  outcome (main w) = Raise e ∧
  (∃ t cmd, trace (main w) = t ++ [EFirewallOp (length pre) firewall cmd]) ∧
  Forall (fun ev => is_print ev = false ∧
                    queries_after (length pre) ev = false) (trace (main w)).
Proof.
  intros Hr Hpre Hk.
  destruct (AuditFacts.main_stops w pre firewall post e Hr Hpre Hk)
    as (resp & t & -> & Ht).
  destruct (AuditFacts.collect_raise_last w _ _ _ Hk) as (tc & cmd & Hc).
  cbn [trace outcome fst snd]. split; [reflexivity |]. split.
  - exists (trace (gate_phase w) ++
            audit_prefix w resp (pre ++ firewall :: post) ++ t ++ tc), cmd.
    rewrite Hc. now rewrite <- !app_assoc.
  - repeat (apply Forall_app; split).
    + eapply Forall_impl; [apply GateFacts.gate_phase_events |].
      intros ev. apply AuditFacts.gate_event_quiet.
    + apply AuditFacts.audit_prefix_quiet.
    + eapply Forall_impl; [exact Ht |].
      intros ev. apply AuditFacts.loop_event_quiet. lia.
    + eapply Forall_impl; [apply AuditFacts.collect_events |].
      intros ev. apply AuditFacts.loop_event_quiet. lia.
Qed.

Lemma first_failure_ends_run_witness :
  outcome (main Scenario.second_member_fails) =
    Raise (PanDeviceError "timed out") ∧
  (∃ t cmd, trace (main Scenario.second_member_fails) =
              t ++ [EFirewallOp 1 {| serial := PStr "002" |} cmd]) ∧
  Forall (fun ev => is_print ev = false ∧ queries_after 1 ev = false)
    (trace (main Scenario.second_member_fails)).
Proof.
  apply (first_failure_ends_run Scenario.second_member_fails
           [{| serial := PStr "001" |}] {| serial := PStr "002" |}
           [{| serial := PStr "003" |}]).
  - repeat split; vm_compute; reflexivity.
  - intros [|[|j]] fwj [= <-]. vm_compute. reflexivity.
  - vm_compute. reflexivity.
Defined.

(** When every collection succeeds the report has one record per member,
    in enumeration order, and it is the table printed. *)
Lemma all_members_collected (w : World) (firewalls : list Firewall) :
  reaches_collection w firewalls →
  (∀ j fwj, firewalls !! j = Some fwj →
            is_ok (outcome (collect w j fwj)) = true) →
  ∃ report,
    outcome (main w) = Ok (Complete report) ∧
    length report = length firewalls ∧
    printed (trace (main w)) = [make_table report] ∧
    ∀ j fwj, firewalls !! j = Some fwj →
      ∃ fw, report !! j = Some fw ∧ outcome (collect w j fwj) = Ok fw.
Proof.
  intros Hr Hall.
  destruct (AuditFacts.main_collection w _ Hr) as (resp & _ & ->).
  destruct (AuditFacts.collect_loop_ok w firewalls 0 [] Hall)
    as (report & Ho & Hl & Hf).
  exists report. rewrite Ho. cbn [trace outcome fst snd audit_suffix].
  repeat split; [exact Hl | | exact Hf].
  unfold printed. rewrite !omap_app.
  assert (∀ t, Forall (fun ev => is_print ev = false) t →
               omap (fun e => match e with EPrint table => Some table
                                         | _ => None end) t = []) as Hq.
  { induction 1 as [|ev t Hev _ IH]; [reflexivity |].
    simpl. destruct ev; try discriminate; exact IH. }
  rewrite (Hq (trace (gate_phase w))), (Hq (audit_prefix w resp firewalls)),
    (Hq (trace (collect_loop w 0 firewalls []))); [reflexivity | | |].
  - eapply Forall_impl; [apply AuditFacts.collect_loop_events |].
    intros ev Hev. now destruct ev.
  - eapply Forall_impl; [apply (AuditFacts.audit_prefix_quiet _ _ _ 0) |].
    now intros ev [? _].
  - eapply Forall_impl; [apply GateFacts.gate_phase_events |].
    intros ev Hev. now destruct ev.
Qed.

(** C5, as stated, fails: when the system info of member #1 has no serial
    the run ends with [KeyError('serial')]; the remaining members are not
    queried and no table is printed. *)
Lemma missing_serial_ends_run :
  outcome (main Scenario.first_member_without_serial) =
    Raise (KeyError "serial") ∧
  ¬ (∃ report, outcome (main Scenario.first_member_without_serial) =
                 Ok (Complete report)) ∧
  List.filter (queries_after 0)
    (trace (main Scenario.first_member_without_serial)) = [] ∧
  printed (trace (main Scenario.first_member_without_serial)) = [].
Proof.
  assert (outcome (main Scenario.first_member_without_serial) =
            Raise (KeyError "serial")) as H
    by (vm_compute; reflexivity).
  split; [exact H |]. split.
  - intros (report & Hr). rewrite H in Hr. discriminate.
  - vm_compute. repeat split.
Qed.

(** C5, amended.  For every device whose system-info reply omits one of the
    fields the script reads, the collection for that device raises and
    yields no record, partial or not; the exception is not caught, so the
    run ends with an exception, prints no table and queries no device
    after that one. *)
Theorem missing_field_ends_run (w : World) (firewalls : list Firewall)
    (k : nat) (firewall : Firewall) (field : string) :
  reaches_collection w firewalls →
  firewalls !! k = Some firewall →
  field ∈ required_fields →
  system_info_omits w k firewall field →
  (∃ e, outcome (collect w k firewall) = Raise e) ∧
  (∃ e, outcome (main w) = Raise e) ∧
  Forall (fun ev => is_print ev = false ∧ queries_after k ev = false)
    (trace (main w)).
Proof.
  intros Hr Hk Hin Homits.
  destruct (AuditFacts.collect_omits w k firewall field Hin Homits) as [e He].
  split; [now exists e |].
  destruct (AuditFacts.first_failure w firewalls 0 k firewall e Hk He)
    as (pre & fw' & post & e' & -> & Hle & Hpre & Hf).
  destruct (AuditFacts.main_stops w pre fw' post e' Hr Hpre Hf)
    as (resp & t & -> & Ht).
  cbn [trace outcome fst snd]. split; [now exists e' |].
  repeat (apply Forall_app; split).
  - eapply Forall_impl; [apply GateFacts.gate_phase_events |].
    intros ev. apply AuditFacts.gate_event_quiet.
  - apply AuditFacts.audit_prefix_quiet.
  - eapply Forall_impl; [exact Ht |].
    intros ev. apply AuditFacts.loop_event_quiet. lia.
  - eapply Forall_impl; [apply AuditFacts.collect_events |].
    intros ev. apply AuditFacts.loop_event_quiet. lia.
Qed.

Lemma missing_field_ends_run_witness :
  (∃ e, outcome (collect Scenario.first_member_without_serial 0
                   {| serial := PStr "001" |}) = Raise e) ∧
  (∃ e, outcome (main Scenario.first_member_without_serial) = Raise e) ∧
  Forall (fun ev => is_print ev = false ∧ queries_after 0 ev = false)
    (trace (main Scenario.first_member_without_serial)).
Proof.
  apply (missing_field_ends_run Scenario.first_member_without_serial
           [{| serial := PStr "001" |}; {| serial := PStr "002" |};
            {| serial := PStr "003" |}] 0 {| serial := PStr "001" |} "serial").
  - repeat split; vm_compute; reflexivity.
  - reflexivity.
  - unfold required_fields. set_solver.
  - eexists _, _, _. repeat split; vm_compute; reflexivity.
Defined.

(** C4, as stated, fails: after a rejected validation the script goes on
    to the enumeration, registers the members, queries each of them and
    ends normally. *)
Lemma rejected_validation_goes_on :
  List.filter api_event (trace (main Scenario.validation_rejected)) =
    [ ERefreshSystemInfo;
      EPanOp cmd_redist_clients;
      EPanOp cmd_devices_connected;
      EFirewallOp 0 {| serial := PStr "001" |} cmd_redist_clients;
      EFirewallOp 0 {| serial := PStr "001" |} cmd_system_info;
      EFirewallOp 1 {| serial := PStr "002" |} cmd_redist_clients;
      EFirewallOp 1 {| serial := PStr "002" |} cmd_system_info;
      EFirewallOp 2 {| serial := PStr "003" |} cmd_redist_clients;
      EFirewallOp 2 {| serial := PStr "003" |} cmd_system_info ] ∧
  is_ok (outcome (main Scenario.validation_rejected)) = true.
Proof. vm_compute. split; reflexivity. Qed.

(** C4, amended.  If the identity validation raises [PanDeviceError], the
    error is logged at error level and the audit phase goes on as after a
    successful validation: the enumeration query is the next event, and
    the rest of the run and its result are those of the same world with
    the validation succeeding. *)
Theorem rejected_validation_is_logged_only (w : World) (msg : string) :
  gate_passes w →
  refresh_system_info w = Raise (PanDeviceError msg) →
  ∃ before after,
    trace (main w) =
      before ++
      [ ERefreshSystemInfo;
        ELog ERROR (MsgExn "Failed to connect to Panorama: "
                      (PanDeviceError msg));
        EPanOp cmd_redist_clients ] ++ after ∧
    main (with_refresh_system_info (Ok tt) w) =
      (before ++
       [ ERefreshSystemInfo;
         ELog DEBUG (Msg "Successfully connected to Panorama with credientials");
         EPanOp cmd_redist_clients ] ++ after,
       outcome (main w)).
Proof.
  intros Hg Hv.
  assert (gate_phase (with_refresh_system_info (Ok tt) w) = gate_phase w) as Hgate
    by now apply GateFacts.gate_phase_ext.
  assert (gate_passes (with_refresh_system_info (Ok tt) w)) as Hg'
    by (unfold gate_passes; now rewrite Hgate).
  rewrite (GateFacts.main_audit _ Hg), (GateFacts.main_audit _ Hg'), Hgate.
  assert (enumerate_and_collect (with_refresh_system_info (Ok tt) w)
            {| children := [] |} =
          enumerate_and_collect w {| children := [] |}) as Hrest
    by (apply AuditFacts.enumerate_and_collect_ext; auto).
  destruct (AuditFacts.enumerate_and_collect_head w {| children := [] |})
    as [after Hhead].
  exists (trace (gate_phase w)), after.
  unfold audit_phase, validate_creds. cbv zeta. rewrite Hrest, Hv.
  destruct (enumerate_and_collect w {| children := [] |}) as [t r].
  simpl in Hhead. subst t. GateFacts.run_step. now destruct r.
Qed.

Lemma rejected_validation_is_logged_only_witness :
  ∃ before after,
    trace (main Scenario.validation_rejected) =
      before ++
      [ ERefreshSystemInfo;
        ELog ERROR (MsgExn "Failed to connect to Panorama: "
                      (PanDeviceError "Invalid credentials"));
        EPanOp cmd_redist_clients ] ++ after ∧
    main (with_refresh_system_info (Ok tt) Scenario.validation_rejected) =
      (before ++
       [ ERefreshSystemInfo;
         ELog DEBUG (Msg "Successfully connected to Panorama with credientials");
         EPanOp cmd_redist_clients ] ++ after,
       outcome (main Scenario.validation_rejected)).
Proof.
  apply (rejected_validation_is_logged_only Scenario.validation_rejected
           "Invalid credentials").
  - vm_compute. reflexivity.
  - reflexivity.
Defined.

(** C6.  When the entry field of the enumeration reply is a single object
    (with its host), exactly one child is registered, for that host; when
    it is a sequence of N such objects, exactly N children are registered,
    one per element, in the order of the sequence. *)
Theorem register_clients_shapes (pan : Panorama)
    (list_of_redist_clients : pyval) :
  (∀ items host,
     entry_of list_of_redist_clients = Ok (PDict items) →
     assoc "host" items = Some host →
     register_clients pan list_of_redist_clients =
       Ok {| children := children pan ++ [{| serial := host |}] |}) ∧
  (∀ entries hosts,
     entry_of list_of_redist_clients = Ok (PList entries) →
     Forall2 (fun each host => getitem each "host" = Ok host) entries hosts →
     register_clients pan list_of_redist_clients =
       Ok {| children :=
               children pan ++ map (fun h => {| serial := h |}) hosts |} ∧
     length (map (fun h => {| serial := h |}) hosts) = length entries).
Proof.
  split.
  - intros items host He Hh. unfold register_clients. rewrite He. simpl.
    now rewrite Hh.
  - intros entries hosts He Hf. unfold register_clients. rewrite He. simpl.
    split; [now apply AuditFacts.add_each_hosts |].
    rewrite length_map. symmetry. exact (Forall2_length _ _ _ Hf).
Qed.

Lemma register_clients_shapes_witness :
  register_clients {| children := [] |}
    (Scenario.reply (PDict [("entry", Scenario.member "001")])) =
    Ok {| children := [{| serial := PStr "001" |}] |} ∧
  register_clients {| children := [] |}
    (Scenario.reply (PDict [("entry",
       PList [Scenario.member "001"; Scenario.member "002";
              Scenario.member "003"])])) =
    Ok {| children :=
            [{| serial := PStr "001" |}; {| serial := PStr "002" |};
             {| serial := PStr "003" |}] |}.
Proof.
  split.
  - exact (proj1 (register_clients_shapes {| children := [] |}
                    (Scenario.reply (PDict [("entry", Scenario.member "001")])))
             [("host", PStr "001")] (PStr "001") eq_refl eq_refl).
  - refine (proj1 (proj2 (register_clients_shapes {| children := [] |}
                     (Scenario.reply (PDict [("entry",
                        PList [Scenario.member "001"; Scenario.member "002";
                               Scenario.member "003"])])))
             [Scenario.member "001"; Scenario.member "002";
              Scenario.member "003"]
             [PStr "001"; PStr "002"; PStr "003"] eq_refl _)).
    repeat constructor.
Defined.

(** C10.  Two runs whose worlds differ at most in the body of the reply to
    the connected-devices query are the same run: same events, same report,
    same table.  In a run that gets to the loop over the children the
    query is issued exactly once, after the enumeration query. *)
Theorem connected_devices_reply_unused (w1 w2 : World) :
  same_but_connected_devices w1 w2 →
  main w1 = main w2 ∧
  ∀ firewalls, reaches_collection w1 firewalls →
    ∃ t1 t2 t3,
      trace (main w1) =
        t1 ++ [EPanOp cmd_redist_clients] ++ t2 ++
        [EPanOp cmd_devices_connected] ++ t3 ∧
      Forall (fun e => e ≠ EPanOp cmd_devices_connected) (t1 ++ t2 ++ t3).
Proof.
  intros (Hc & Hs & Hv & Hp & Hok1 & Hok2 & Hf). split.
  - assert (audit_phase w1 = audit_phase w2) as Ha.
    { unfold audit_phase, validate_creds. cbv zeta. rewrite Hv.
      rewrite (AuditFacts.enumerate_and_collect_ext w1 w2);
        [reflexivity | apply Hp; discriminate | now right | exact Hf]. }
    unfold main. now rewrite (GateFacts.gate_phase_ext w1 w2 Hc Hs), Ha.
  - intros firewalls Hr.
    destruct (AuditFacts.main_collection w1 firewalls Hr) as (resp & _ & ->).
    cbn [trace fst]. unfold audit_prefix.
    eexists (trace (gate_phase w1) ++ [ERefreshSystemInfo; _]),
      [ELog DEBUG (MsgVal "list_of_redist_clients: " resp);
       ELog DEBUG (MsgChildren firewalls)],
      (trace (collect_loop w1 0 firewalls []) ++
       audit_suffix (outcome (collect_loop w1 0 firewalls []))).
    split; [now rewrite <- !app_assoc |].
    repeat (apply Forall_app; split).
    + eapply Forall_impl; [apply GateFacts.gate_phase_events |].
      intros e He ->. exact He.
    + destruct (refresh_system_info w1); repeat constructor; discriminate.
    + repeat constructor; discriminate.
    + eapply Forall_impl; [apply AuditFacts.collect_loop_events |].
      intros e He ->. exact He.
    + destruct (outcome (collect_loop w1 0 firewalls []));
        repeat constructor; discriminate.
Qed.

Lemma connected_devices_reply_unused_witness :
  main Scenario.three_members = main Scenario.other_connected_devices ∧
  ∃ t1 t2 t3,
    trace (main Scenario.three_members) =
      t1 ++ [EPanOp cmd_redist_clients] ++ t2 ++
      [EPanOp cmd_devices_connected] ++ t3 ∧
    Forall (fun e => e ≠ EPanOp cmd_devices_connected) (t1 ++ t2 ++ t3).
Proof.
  destruct (connected_devices_reply_unused Scenario.three_members
              Scenario.other_connected_devices) as [Hsame Honce].
  - repeat split; try reflexivity.
    intros cmd Hne. simpl.
    destruct (String.eqb_spec cmd cmd_devices_connected); [contradiction |].
    reflexivity.
  - split; [exact Hsame |].
    apply (Honce [{| serial := PStr "001" |}; {| serial := PStr "002" |};
                  {| serial := PStr "003" |}]).
    repeat split; vm_compute; reflexivity.
Defined.

(** * Further properties *)

(** ** What the search captures *)

Module CaptureFacts.
Import Re TextFacts ReFacts.

Lemma run_drop_run (cls : ascii → bool) (s : string) :
  Text.run cls (Text.drop (Text.run cls s) s) = 0%nat.
Proof.
  induction s as [|c s IH]; simpl; [reflexivity |].
  destruct (cls c) eqn:E; simpl; [exact IH | now rewrite E].
Qed.

(** A group that ends the pattern takes the whole run. *)
Lemma match_here_last (cls : ascii → bool) (s : string) :
  match_here [GroupPlus cls] s =
    match Text.run cls s with
    | O => None
    | S _ => Some [Text.take (Text.run cls s) s]
    end.
Proof. simpl. now destruct (Text.run cls s). Qed.

Lemma match_here_field (l : string) (c1 c2 : ascii → bool) (s : string)
    (gs : list string) :
  match_here [Lit l; Plus c1; GroupPlus c2] s = Some gs →
  ∃ ws g post,
    gs = [g] ∧ s = l +:+ ws +:+ g +:+ post ∧
    ws ≠ "" ∧ Text.all c1 ws = true ∧
    g ≠ "" ∧ Text.all c2 g = true ∧ Text.run c2 post = 0%nat.
Proof.
  change (match_here [Lit l; Plus c1; GroupPlus c2] s) with
    (match Text.strip_prefix l s with
     | Some s' =>
         backtrack (fun k => match_here [GroupPlus c2] (Text.drop k s'))
           (Text.run c1 s')
     | None => None
     end).
  destruct (Text.strip_prefix l s) as [s'|] eqn:E; [| discriminate].
  intros (k & H1 & Hk & H)%backtrack_sound.
  rewrite match_here_last in H.
  destruct (Text.run c2 (Text.drop k s')) as [|n] eqn:Hn; [discriminate |].
  injection H as <-.
  exists (Text.take k s'), (Text.take (S n) (Text.drop k s')),
    (Text.drop (S n) (Text.drop k s')).
  split; [reflexivity |]. split.
  { rewrite (strip_prefix_Some _ _ _ E). now rewrite !take_drop. }
  split; [eapply take_nonempty; eauto |].
  split; [now apply take_run |].
  split; [apply (take_nonempty c2); lia |].
  split; [apply take_run; lia |].
  rewrite <- Hn. apply run_drop_run.
Qed.

(** No position before the one [search] stops at has a match. *)
Lemma search_leftmost (p : pattern) (text : string) (gs : list string) :
  search p text = Some gs →
  ∃ pre s,
    text = pre +:+ s ∧ match_here p s = Some gs ∧
    ∀ pre' s', text = pre' +:+ s' →
               (String.length pre' < String.length pre)%nat →
               match_here p s' = None.
Proof.
  induction text as [|c text IH]; simpl.
  - destruct (match_here p "") eqn:E; [| discriminate]. intros [= ->].
    exists "", "". repeat split; [exact E |]. simpl. lia.
  - destruct (match_here p (String c text)) eqn:E.
    + intros [= ->]. exists "", (String c text).
      repeat split; [exact E |]. simpl. lia.
    + intros H. destruct (IH H) as (pre & s & -> & Hs & Hmin).
      exists (String c pre), s. repeat split; [exact Hs |].
      intros [|c' pre'] s' Heq Hlt.
      * rewrite append_nil in Heq. now subst s'.
      * rewrite !append_cons in Heq. injection Heq as _ Heq.
        apply (Hmin pre' s' Heq). simpl in Hlt. lia.
Qed.

Lemma occurs_embed (p : pattern) (a text b : string) :
  occurs p text → occurs p (a +:+ text +:+ b).
Proof.
  intros (pre & m & post & gs & -> & Hm).
  exists (a +:+ pre), m, (post +:+ b), gs. split; [| exact Hm].
  now rewrite !append_assoc.
Qed.

(** One character of [ssl_config]: lowered, then the space replaced. *)
Lemma token_char_normal (c : ascii) :
  Text.is_dot c = true →
  token_char (if Ascii.eqb (Text.lower_char c) " " then "_"%char
              else Text.lower_char c) = true.
Proof.
  destruct c as [[] [] [] [] [] [] [] []]; vm_compute; congruence.
Qed.

Lemma all_token_char (s : string) :
  Text.all Text.is_dot s = true →
  Text.all token_char (Text.replace_space (Text.lower s)) = true.
Proof.
  induction s as [|c s IH]; simpl; [reflexivity |].
  intros [Hc Hs]%andb_prop. rewrite (token_char_normal c Hc). now apply IH.
Qed.

Lemma lower_token (s : string) :
  Text.all token_char s = true → Text.lower s = s.
Proof.
  unfold Text.lower. induction s as [|c s IH]; simpl; [reflexivity |].
  intros [Hc Hs]%andb_prop. rewrite (IH Hs). f_equal.
  unfold token_char in Hc. apply andb_prop in Hc as [_ Hc].
  now apply Ascii.eqb_eq.
Qed.

Lemma map_str_nonempty (f : ascii → ascii) (s : string) :
  s ≠ "" → Text.map_str f s ≠ "".
Proof. destruct s; simpl; congruence. Qed.

End CaptureFacts.

(** X1.  The text a field captures is maximal: the capture of
    [literal \s+ (class+)] follows the literal and at least one blank, is
    not empty, lies in the class, and the text right after it does not go
    on in the class.  So [ssl_config] runs to the end of its line and a
    client count is never cut short. *)
Theorem capture_is_maximal (l : string) (c1 c2 : ascii → bool)
    (output g : string) :
  capture [Re.Lit l; Re.Plus c1; Re.GroupPlus c2] output = Some g →
  ∃ pre ws post,
    output = pre +:+ l +:+ ws +:+ g +:+ post ∧
    ws ≠ "" ∧ Text.all c1 ws = true ∧
    g ≠ "" ∧ Text.all c2 g = true ∧ Text.run c2 post = 0%nat.
Proof.
  unfold capture.
  destruct (Re.search _ output) as [gs|] eqn:E; [| discriminate].
  destruct (CaptureFacts.search_leftmost _ _ _ E) as (pre & s & -> & Hs & _).
  destruct (CaptureFacts.match_here_field _ _ _ _ _ Hs)
    as (ws & g' & post & -> & -> & H).
  simpl. intros [= <-]. now exists pre, ws, post.
Qed.

Lemma capture_is_maximal_witness :
  ∃ pre ws post,
    Scenario.status_text =
      pre +:+ "SSL config:" +:+ ws +:+ "Default certificates" +:+ post ∧
    ws ≠ "" ∧ Text.all Text.is_space ws = true ∧
    "Default certificates" ≠ "" ∧
    Text.all Text.is_dot "Default certificates" = true ∧
    Text.run Text.is_dot post = 0%nat.
Proof.
  apply (capture_is_maximal "SSL config:" Text.is_space Text.is_dot
           Scenario.status_text "Default certificates").
  vm_compute. reflexivity.
Defined.

(** X2.  [search] returns the match at the leftmost position: the text
    splits at the position where the pattern matched, and no match of the
    pattern, however it splits the text, starts before it. *)
Theorem search_finds_leftmost (p : Re.pattern) (output : string)
    (gs : list string) :
  Re.search p output = Some gs →
  ∃ pre s,
    output = pre +:+ s ∧ Re.match_here p s = Some gs ∧
    ∀ pre' m post gs',
      output = pre' +:+ m +:+ post → Re.matches p m gs' →
      (String.length pre ≤ String.length pre')%nat.
Proof.
  intros H.
  destruct (CaptureFacts.search_leftmost _ _ _ H) as (pre & s & -> & Hs & Hmin).
  exists pre, s. repeat split; [exact Hs |].
  intros pre' m post gs' Heq Hm.
  destruct (le_lt_dec (String.length pre) (String.length pre')) as [|Hlt];
    [assumption |].
  pose proof (Hmin pre' (m +:+ post) Heq Hlt) as Hnone.
  destruct (ReFacts.match_here_complete p m post gs' Hm) as [x Hx].
  congruence.
Qed.

Lemma search_finds_leftmost_witness :
  ∃ pre s,
    Scenario.status_text = pre +:+ s ∧
    Re.match_here pat_clients s = Some ["3"] ∧
    ∀ pre' m post gs',
      Scenario.status_text = pre' +:+ m +:+ post →
      Re.matches pat_clients m gs' →
      (String.length pre ≤ String.length pre')%nat.
Proof.
  apply (search_finds_leftmost pat_clients Scenario.status_text ["3"]).
  vm_compute. reflexivity.
Defined.

(** X3.  A [number_of_clients] the parser returns is an integer, it is not
    negative, and it is below [10 ^ 4300]: a count with more digits is
    not converted. *)
Theorem parse_clients_nonnegative (output : string) (d : gmap string pyval)
    (v : pyval) :
  parse_status_command_output output = Ok d →
  d !! "number_of_clients" = Some v →
  ∃ n, v = PInt n ∧ (0 ≤ n < 10 ^ Z.of_nat int_max_str_digits)%Z.
Proof.
  intros Hd Hv.
  pose proof (ParserFacts.parse_ok_fits _ _ Hd) as Hfit.
  destruct (ParserFacts.parse_ok_fields _ _ Hd) as (_ & _ & F3 & _).
  rewrite F3 in Hv. unfold count_fits in Hfit.
  unfold capture, pat_clients in Hv, Hfit.
  destruct (ParserFacts.search_field "number of clients:" Text.is_space
              Text.is_digit output) as [E|(g & E & _ & Hg)];
    rewrite E in Hv, Hfit; [discriminate |].
  change ((String.length g <=? int_max_str_digits)%nat = true) in Hfit.
  injection Hv as <-. eexists. split; [reflexivity |].
  rewrite ParserFacts.decimal_value.
  pose proof (ParserFacts.digits_value_bounds g Hg) as [H0 H1].
  apply Nat.leb_le in Hfit.
  assert (10 ^ Z.of_nat (String.length g) ≤
          10 ^ Z.of_nat int_max_str_digits)%Z
    by (apply Z.pow_le_mono_r; lia).
  lia.
Qed.

Lemma parse_clients_nonnegative_witness :
  ∃ n, PInt 3 = PInt n ∧ (0 ≤ n < 10 ^ Z.of_nat int_max_str_digits)%Z.
Proof.
  apply (parse_clients_nonnegative Scenario.status_text
           Scenario.status_fields (PInt 3)).
  - vm_compute. reflexivity.
  - vm_compute. reflexivity.
Defined.

(** X4.  An [ssl_config] the parser returns is a string that is not empty,
    holds no space and no line feed, and is in lower case (lowering it
    again changes nothing). *)
Theorem parse_ssl_config_token (output : string) (d : gmap string pyval)
    (v : pyval) :
  parse_status_command_output output = Ok d →
  d !! "ssl_config" = Some v →
  ∃ s, v = PStr s ∧ s ≠ "" ∧ Text.all token_char s = true ∧
       Text.lower s = s.
Proof.
  intros Hd Hv.
  destruct (ParserFacts.parse_ok_fields _ _ Hd) as (_ & F2 & _ & _).
  rewrite F2 in Hv. unfold capture, pat_ssl_config in Hv.
  destruct (ParserFacts.search_field "SSL config:" Text.is_space
              Text.is_dot output) as [E|(g & E & Hne & Hg)];
    rewrite E in Hv; [discriminate |].
  injection Hv as <-. eexists. split; [reflexivity |].
  pose proof (CaptureFacts.all_token_char g Hg) as Ht.
  repeat split; [| exact Ht | now apply CaptureFacts.lower_token].
  unfold Text.replace_space, Text.lower.
  now do 2 apply CaptureFacts.map_str_nonempty.
Qed.

Lemma parse_ssl_config_token_witness :
  ∃ s, PStr "default_certificates" = PStr s ∧ s ≠ "" ∧
       Text.all token_char s = true ∧ Text.lower s = s.
Proof.
  apply (parse_ssl_config_token Scenario.status_text Scenario.status_fields
           (PStr "default_certificates")).
  - vm_compute. reflexivity.
  - vm_compute. reflexivity.
Defined.

(** X5.  A dictionary the parser returns has no key besides its three, and
    a [redistribution_status] in it is a string, not empty, made of word
    characters only. *)
Theorem parse_keys_and_status (output : string) (d : gmap string pyval) :
  parse_status_command_output output = Ok d →
  dom d ⊆ ({["redistribution_status"; "ssl_config"; "number_of_clients"]}
           : gset string) ∧
  ∀ v, d !! "redistribution_status" = Some v →
    ∃ s, v = PStr s ∧ s ≠ "" ∧ Text.all Text.is_word s = true.
Proof.
  intros Hd.
  destruct (ParserFacts.parse_ok_fields _ _ Hd) as (F1 & _ & _ & F4).
  split.
  - intros k [v Hk]%elem_of_dom.
    destruct (decide (k = "redistribution_status")) as [-> |]; [set_solver |].
    destruct (decide (k = "ssl_config")) as [-> |]; [set_solver |].
    destruct (decide (k = "number_of_clients")) as [-> |]; [set_solver |].
    rewrite F4 in Hk by assumption. discriminate.
  - intros v Hv. rewrite F1 in Hv. unfold capture, pat_status in Hv.
    destruct (ParserFacts.search_field "Redistribution service:" Text.is_space
                Text.is_word output) as [E|(g & E & Hne & Hg)];
      rewrite E in Hv; [discriminate |].
    injection Hv as <-. now exists g.
Qed.

Lemma parse_keys_and_status_witness :
  dom Scenario.status_fields ⊆
    ({["redistribution_status"; "ssl_config"; "number_of_clients"]}
     : gset string) ∧
  ∀ v, Scenario.status_fields !! "redistribution_status" = Some v →
    ∃ s, v = PStr s ∧ s ≠ "" ∧ Text.all Text.is_word s = true.
Proof.
  apply (parse_keys_and_status Scenario.status_text).
  vm_compute. reflexivity.
Defined.

(** X6.  The parser tolerates surrounding text: when it returns on a text
    and on a longer text the first is embedded in, every field it finds in
    the first it finds in the longer one too. *)
Theorem parse_embedded_text (a output b : string) (d d' : gmap string pyval) :
  parse_status_command_output output = Ok d →
  parse_status_command_output (a +:+ output +:+ b) = Ok d' →
  ∀ k, is_Some (d !! k) → is_Some (d' !! k).
Proof.
  intros Hd Hd'.
  destruct (ParserFacts.parse_ok_fields _ _ Hd) as (F1 & F2 & F3 & F4).
  destruct (ParserFacts.parse_ok_fields _ _ Hd') as (F1' & F2' & F3' & _).
  assert (∀ p, is_Some (capture p output) →
               Re.occurs p (a +:+ output +:+ b)) as Hocc.
  { intros p [g Hg]. apply CaptureFacts.occurs_embed, ReFacts.search_occurs.
    unfold capture in Hg. destruct (Re.search p output); [eauto | discriminate]. }
  intros k [v Hk].
  destruct (decide (k = "redistribution_status")) as [-> |].
  { rewrite F1 in Hk. rewrite F1'.
    destruct (ParserFacts.capture_Some _ _ _ _
                (Hocc pat_status ltac:(destruct (capture pat_status output);
                                       [eauto | discriminate])))
      as (g & E & _). fold pat_status in E. unfold capture. rewrite E. eauto. }
  destruct (decide (k = "ssl_config")) as [-> |].
  { rewrite F2 in Hk. rewrite F2'.
    destruct (ParserFacts.capture_Some _ _ _ _
                (Hocc pat_ssl_config
                   ltac:(destruct (capture pat_ssl_config output);
                         [eauto | discriminate])))
      as (g & E & _). fold pat_ssl_config in E. unfold capture. rewrite E.
    eauto. }
  destruct (decide (k = "number_of_clients")) as [-> |].
  { rewrite F3 in Hk. rewrite F3'.
    destruct (ParserFacts.capture_Some _ _ _ _
                (Hocc pat_clients ltac:(destruct (capture pat_clients output);
                                        [eauto | discriminate])))
      as (g & E & _). fold pat_clients in E. unfold capture. rewrite E. eauto. }
  rewrite F4 in Hk by assumption. discriminate.
Qed.

Lemma parse_embedded_text_witness :
  is_Some (Scenario.status_fields !! "ssl_config").
Proof.
  apply (parse_embedded_text
           ("Redistribution service: up" +:+ Scenario.nl)
           "SSL config: Default certificates"
           (Scenario.nl +:+ "number of clients: 3")
           (<["ssl_config" := PStr "default_certificates"]> ∅)).
  - vm_compute. reflexivity.
  - vm_compute. reflexivity.
  - vm_compute. eauto.
Defined.

(** X21.  The parser raises in one case only: when the digits captured
    for the client count number more than 4300.  The exception is then the
    [ValueError] of [int]; the searches, [lower] and [replace] never
    raise. *)
Theorem parse_raises_iff (output : string) (e : exn) :
  parse_status_command_output output = Raise e ↔
  e = int_limit_error ∧
  ∃ clients,
    capture pat_clients output = Some clients ∧
    (int_max_str_digits < String.length clients)%nat.
Proof.
  pose proof (ParserFacts.parse_result output) as R. unfold count_fits in *.
  destruct (capture pat_clients output) as [clients|].
  - destruct (Nat.leb_spec (String.length clients) int_max_str_digits)
      as [Hle|Hlt].
    + destruct R as (d & -> & _). split; [discriminate |].
      intros (_ & clients' & [= <-] & Hlt). lia.
    + rewrite R. split.
      * intros [= <-]. split; [reflexivity |]. now exists clients.
      * now intros [-> _].
  - destruct R as (d & -> & _). split; [discriminate |].
    intros (_ & clients' & [=] & _).
Qed.

(** ** The run, case by case *)

Module CaseFacts.
Import RunFacts GateFacts AuditFacts.

#[local] Arguments count_fits : simpl never.
#[local] Arguments register_clients : simpl never.
#[local] Arguments collect_loop : simpl never.
#[local] Arguments collect : simpl never.

(** The two ways a collection goes: it stops on its first query, or it
    issues both. *)
Lemma collect_calls (w : World) (i : nat) (firewall : Firewall) :
  (∃ e, collect w i firewall =
          ([EFirewallOp i firewall cmd_redist_clients], Raise e)) ∨
  (∃ r1, trace (collect w i firewall) =
           [EFirewallOp i firewall cmd_redist_clients;
            ELog DEBUG (MsgVal "" r1);
            EFirewallOp i firewall cmd_system_info]).
Proof.
  unfold collect.
  destruct (firewall_op w i firewall cmd_redist_clients) as [r1|e1]; run_step;
    [right; exists r1 | left; eauto].
  destruct (firewall_op w i firewall cmd_system_info) as [r2|e2]; run_step;
    reflexivity.
Qed.

(** A loop that ends normally has collected every child. *)
Lemma collect_loop_ok_all (w : World) (firewalls : list Firewall) (i : nat)
    (acc l : list (list (string * pyval))) :
  outcome (collect_loop w i firewalls acc) = Ok l →
  ∀ j fwj, firewalls !! j = Some fwj →
           is_ok (outcome (collect w (i + j) fwj)) = true.
Proof.
  intros Hl j fwj Hj.
  destruct (outcome (collect w (i + j) fwj)) as [f|e] eqn:E; [reflexivity |].
  destruct (first_failure w firewalls i j fwj e Hj E)
    as (pre & fw' & post & e' & -> & _ & Hpre & Hf).
  destruct (collect_loop_stops w pre fw' post e' i acc Hpre Hf) as (t & Ht & _).
  rewrite Ht in Hl. discriminate.
Qed.

Lemma collect_loop_ok_inv (w : World) (firewalls : list Firewall) (i : nat)
    (acc l : list (list (string * pyval))) :
  outcome (collect_loop w i firewalls acc) = Ok l →
  ∃ facts,
    l = acc ++ facts ∧ length facts = length firewalls ∧
    ∀ j fwj, firewalls !! j = Some fwj →
      ∃ fw, facts !! j = Some fw ∧ outcome (collect w (i + j) fwj) = Ok fw.
Proof.
  intros Hl.
  destruct (collect_loop_ok w firewalls i acc
              (collect_loop_ok_all w firewalls i acc l Hl))
    as (facts & Ho & Hlen & Hf).
  exists facts. repeat split; [congruence | exact Hlen | exact Hf].
Qed.

(** The API calls of the loop, in order: all of them when it ends
    normally, a prefix of them otherwise. *)
Lemma loop_calls (w : World) (firewalls : list Firewall) (i : nat)
    (acc : list (list (string * pyval))) :
  List.filter api_event (trace (collect_loop w i firewalls acc))
    `prefix_of` loop_queries i firewalls ∧
  (is_ok (outcome (collect_loop w i firewalls acc)) = true →
   List.filter api_event (trace (collect_loop w i firewalls acc)) =
     loop_queries i firewalls).
Proof.
  revert i acc; induction firewalls as [|fw fws IH]; intros i acc.
  - split; [apply prefix_nil | reflexivity].
  - rewrite collect_loop_cons. simpl loop_queries.
    destruct (collect_calls w i fw) as [[e He]|[r1 Hr1]].
    + rewrite He. simpl. split; [| discriminate].
      now apply prefix_cons, prefix_nil.
    + destruct (outcome (collect w i fw)) as [f|e]; rewrite Hr1; simpl.
      * destruct (IH (S i) (acc ++ [f])) as [Hp Hok]. split.
        -- now do 2 apply prefix_cons.
        -- intros H. now rewrite (Hok H).
      * split; [| discriminate]. do 2 apply prefix_cons. apply prefix_nil.
Qed.

Lemma loop_queries_from (i : nat) (firewalls : list Firewall) (j : nat)
    (firewall : Firewall) (cmd : string) :
  EFirewallOp j firewall cmd ∈ loop_queries i firewalls →
  (i ≤ j)%nat ∧ firewalls !! (j - i)%nat = Some firewall ∧
  (cmd = cmd_redist_clients ∨ cmd = cmd_system_info).
Proof.
  revert i; induction firewalls as [|fw fws IH]; intros i; simpl.
  - intros []%elem_of_nil.
  - rewrite !elem_of_cons. intros [[= -> -> ->] | [[= -> -> ->] | H]].
    + rewrite Nat.sub_diag. auto.
    + rewrite Nat.sub_diag. auto.
    + destruct (IH _ H) as (Hle & Hl & Hc).
      replace (j - i)%nat with (S (j - S i)) by lia. auto with lia.
Qed.

Lemma loop_queries_NoDup (i : nat) (firewalls : list Firewall) :
  NoDup (loop_queries i firewalls).
Proof.
  revert i; induction firewalls as [|fw fws IH]; intros i; simpl.
  - constructor.
  - constructor.
    + rewrite elem_of_cons. intros [[=] | H].
      apply loop_queries_from in H. lia.
    + constructor; [| apply IH].
      intros H. apply loop_queries_from in H. lia.
Qed.

Lemma loop_queries_ops (i : nat) (firewalls : list Firewall) (e : event) :
  e ∈ loop_queries i firewalls → ∃ j firewall cmd, e = EFirewallOp j firewall cmd.
Proof.
  revert i; induction firewalls as [|fw fws IH]; intros i; simpl.
  - intros []%elem_of_nil.
  - rewrite !elem_of_cons. intros [-> | [-> | H]]; eauto.
Qed.

Lemma api_calls_NoDup (firewalls : list Firewall) : NoDup (api_calls firewalls).
Proof.
  unfold api_calls. simpl.
  repeat constructor; rewrite ?elem_of_cons.
  - intros [[=] | [[=] | H]].
    now apply loop_queries_ops in H as (? & ? & ? & [=]).
  - intros [[=] | H]. now apply loop_queries_ops in H as (? & ? & ? & [=]).
  - intros H. now apply loop_queries_ops in H as (? & ? & ? & [=]).
  - apply loop_queries_NoDup.
Qed.

(** The audit phase either gets to the loop over the children, or ends
    with an exception after one, two or three of its first API calls,
    having printed nothing. *)
Lemma audit_phase_cases (w : World) :
  (∃ firewalls,
     validation_survived w = true ∧ members w = Ok firewalls ∧
     is_ok (pan_op w cmd_devices_connected) = true) ∨
  (∃ e n,
     outcome (audit_phase w) = Raise e ∧ (1 ≤ n)%nat ∧
     List.filter api_event (trace (audit_phase w)) =
       take n [ERefreshSystemInfo; EPanOp cmd_redist_clients;
               EPanOp cmd_devices_connected] ∧
     Forall (fun ev => is_print ev = false) (trace (audit_phase w))).
Proof.
  unfold validation_survived, members, audit_phase, validate_creds,
    enumerate_and_collect. cbv zeta.
  destruct (refresh_system_info w) as [[]|e0] eqn:Hv; run_step.
  - destruct (pan_op w cmd_redist_clients) as [resp|e1]; run_step.
    + destruct (register_clients {| children := [] |} resp) as [[fws]|e2];
        run_step.
      * destruct (pan_op w cmd_devices_connected) as [conn|e3]; run_step.
        -- left. now exists fws.
        -- right. exists e3, 3%nat. repeat split; auto; repeat constructor.
      * right. exists e2, 2%nat. repeat split; auto; repeat constructor.
    + right. exists e1, 2%nat. repeat split; auto; repeat constructor.
  - destruct (is_PanDeviceError e0) eqn:Hp; run_step.
    + destruct (pan_op w cmd_redist_clients) as [resp|e1]; run_step.
      * destruct (register_clients {| children := [] |} resp) as [[fws]|e2];
          run_step.
        -- destruct (pan_op w cmd_devices_connected) as [conn|e3]; run_step.
           ++ left. now exists fws.
           ++ right. exists e3, 3%nat. repeat split; auto; repeat constructor.
        -- right. exists e2, 2%nat. repeat split; auto; repeat constructor.
      * right. exists e1, 2%nat. repeat split; auto; repeat constructor.
    + right. exists e0, 1%nat. repeat split; auto; repeat constructor.
Qed.

Lemma gate_phase_calls (w : World) :
  List.filter api_event (trace (gate_phase w)) = [] ∧
  printed (trace (gate_phase w)) = [].
Proof.
  pose proof (gate_phase_events w) as H.
  induction H as [|ev t Hev _ [IH1 IH2]]; [now split |].
  destruct ev; try contradiction; simpl; auto.
Qed.

(** How a run goes on after the gate phase. *)
Lemma main_cases (w : World) :
  (∃ r, main w = (trace (gate_phase w), r) ∧
        (r = Ok GateSkipped ∨ ∃ e, r = Raise e) ∧ ¬ gate_passes w) ∨
  (gate_passes w ∧
   ∃ e n t,
     main w = (trace (gate_phase w) ++ t, Raise e) ∧ (1 ≤ n)%nat ∧
     List.filter api_event t =
       take n [ERefreshSystemInfo; EPanOp cmd_redist_clients;
               EPanOp cmd_devices_connected] ∧
     Forall (fun ev => is_print ev = false) t) ∨
  (∃ firewalls, reaches_collection w firewalls).
Proof.
  destruct (outcome (gate_phase w) ≫= gate_check) as [[]|e] eqn:Hg.
  - destruct (audit_phase_cases w)
      as [(fws & Hv & Hm & Hc)|(e & n & Ho & Hn & Hf & Hp)].
    + right. right. exists fws. now repeat split.
    + right. left. split; [exact Hg |].
      exists e, n, (trace (audit_phase w)).
      rewrite (main_audit w Hg), Ho. now repeat split.
  - left. exists (Ok GateSkipped). rewrite (main_skipped w Hg).
    repeat split; [now left |]. unfold gate_passes. congruence.
  - left. exists (Raise e). rewrite (main_raise w e Hg).
    repeat split; [right; eauto |]. unfold gate_passes. congruence.
Qed.

(** The API calls of a run that gets to the loop. *)
Lemma main_collection_calls (w : World) (firewalls : list Firewall) :
  reaches_collection w firewalls →
  registered w = firewalls ∧
  List.filter api_event (trace (main w)) =
    [ERefreshSystemInfo; EPanOp cmd_redist_clients;
     EPanOp cmd_devices_connected] ++
    List.filter api_event (trace (collect_loop w 0 firewalls [])) ∧
  printed (trace (main w)) =
    printed (audit_suffix (outcome (collect_loop w 0 firewalls []))).
Proof.
  intros Hr. pose proof Hr as (_ & _ & Hm & _).
  split; [unfold registered; now rewrite Hm |].
  destruct (main_collection w firewalls Hr) as (resp & _ & ->).
  cbn [trace fst]. destruct (gate_phase_calls w) as [Hg1 Hg2].
  pose proof (collect_loop_events w firewalls 0 []) as Hl.
  split.
  - rewrite !List.filter_app, Hg1.
    assert (List.filter api_event
              (audit_suffix (outcome (collect_loop w 0 firewalls []))) = [])
      as -> by (unfold audit_suffix; now destruct (outcome _)).
    unfold audit_prefix.
    destruct (refresh_system_info w); simpl; now rewrite app_nil_r.
  - unfold printed. rewrite !omap_app. fold (printed (trace (gate_phase w))).
    rewrite Hg2. unfold audit_prefix.
    assert (omap (fun e => match e with EPrint table => Some table
                                      | _ => None end)
              (trace (collect_loop w 0 firewalls [])) = []) as ->.
    { induction Hl as [|ev t Hev _ IH]; [reflexivity |].
      destruct ev; try contradiction; exact IH. }
    now destruct (refresh_system_info w).
Qed.

(** The parser followed by the gate condition. *)
Lemma gate_check_parse (text : string) (d : gmap string pyval) :
  parse_status_command_output text = Ok d →
  gate_check (Some d) = decision text.
Proof.
  intros Hd.
  pose proof (ParserFacts.parse_ok_fits _ _ Hd) as Hfit.
  destruct (ParserFacts.parse_ok_fields _ _ Hd) as (F1 & F2 & _).
  unfold gate_check, lookup_key, decision. rewrite Hfit, F1, F2.
  destruct (capture pat_status text) as [status|]; simpl; [| reflexivity].
  destruct (String.eqb status "up"); [| reflexivity].
  now destruct (capture pat_ssl_config text).
Qed.

(** The gate of a run, from what the text session answers. *)
Lemma gate_decision (w : World) :
  outcome (gate_phase w) ≫= gate_check =
    match ConnectHandler w, send_command w cmd_status with
    | Ok _, Ok text =>
        if String.eqb text "" then Raise (NameError "parsed_output")
        else decision text
    | _, _ => Raise (NameError "parsed_output")
    end.
Proof.
  destruct (ConnectHandler w) as [u|e] eqn:Hc.
  - destruct (output_fits w) eqn:Hfit.
    + destruct (gate_phase_closed w) as (t & po & Hg & _ & Hno & Hyes);
        [now rewrite Hc | exact Hfit |].
      rewrite Hg. cbn [outcome snd].
      unfold output_fits, gate_output, truthy in *.
      destruct (send_command w cmd_status) as [text|e].
      * destruct (String.eqb text "") eqn:E; simpl in *.
        -- destruct (Hno eq_refl) as [-> _]. reflexivity.
        -- destruct (Hyes eq_refl) as (text' & [= <-] & Hpo).
           destruct (ParserFacts.parse_fields text Hfit) as (d & Hd & _).
           rewrite Hd in Hpo.
           injection Hpo as ->. exact (gate_check_parse text d Hd).
      * destruct (Hno eq_refl) as [-> _]. reflexivity.
    + destruct (gate_phase_open w) as (text & Hs & Hg);
        [now rewrite Hc | exact Hfit |].
      rewrite Hg, Hs. cbn [outcome snd].
      unfold output_fits, gate_output in Hfit. rewrite Hs in Hfit.
      destruct (String.eqb text "") eqn:E.
      { apply String.eqb_eq in E as ->. vm_compute in Hfit. discriminate Hfit. }
      unfold decision. now rewrite Hfit.
  - rewrite (gate_phase_not_connected w e Hc). reflexivity.
Qed.

Lemma printed_nil (t : list event) :
  Forall (fun ev => is_print ev = false) t → printed t = [].
Proof.
  induction 1 as [|ev t Hev _ IH]; [reflexivity |].
  destruct ev; try discriminate; exact IH.
Qed.

(** A collection that succeeds is as [collected] says. *)
Lemma collect_ok_inv (w : World) (i : nat) (firewall : Firewall)
    (fw : list (string * pyval)) :
  outcome (collect w i firewall) = Ok fw → collected w i firewall fw.
Proof.
  unfold collected, collect.
  destruct (firewall_op w i firewall cmd_redist_clients) as [r1|] eqn:E1;
    run_step; [| discriminate].
  destruct (firewall_op w i firewall cmd_system_info) as [si|] eqn:E2;
    run_step; [| discriminate].
  destruct (response_result si) as [r|] eqn:E3; simpl; [| discriminate].
  destruct (getitem r "system") as [sys|] eqn:E4; simpl; [| discriminate].
  destruct (getitem sys "hostname") as [v1|] eqn:G1; simpl; [| discriminate].
  destruct (getitem sys "ip-address") as [v2|] eqn:G2; simpl; [| discriminate].
  destruct (getitem sys "serial") as [v3|] eqn:G3; simpl; [| discriminate].
  destruct (getitem sys "model") as [v4|] eqn:G4; simpl; [| discriminate].
  destruct (getitem sys "sw-version") as [v5|] eqn:G5; simpl; [| discriminate].
  destruct (getitem sys "app-version") as [v6|] eqn:G6; simpl; [| discriminate].
  destruct (getitem sys "device-certificate-status") as [v7|] eqn:G7; simpl;
    [| discriminate].
  destruct (response_result r1) as [res|] eqn:E5; simpl; [| discriminate].
  intros [= <-]. exists r1, si, r, sys, res.
  repeat split; try assumption.
  unfold column_sources. repeat constructor; eexists; split; eauto.
Qed.

(** Registration over a list that succeeds read a host from every
    element. *)
Lemma add_each_inv (entries : list pyval) (pan pan' : Panorama) :
  add_each pan entries = Ok pan' →
  ∃ hosts,
    Forall2 (fun each host => getitem each "host" = Ok host) entries hosts ∧
    children pan' =
      children pan ++ map (fun h => {| serial := h |}) hosts.
Proof.
  revert pan; induction entries as [|each entries IH]; intros pan; simpl.
  - intros [= <-]. exists []. split; [constructor | now rewrite app_nil_r].
  - destruct (getitem each "host") as [host|] eqn:E; simpl; [| discriminate].
    intros H. destruct (IH _ H) as (hosts & Hf & Hc).
    exists (host :: hosts). split; [now constructor |].
    rewrite Hc. simpl. now rewrite <- app_assoc.
Qed.

End CaseFacts.

(** X20.  The collection for a device succeeds exactly when both queries
    answer, the system-info reply holds [response], [result], [system] and
    the seven fields, and the reply to the client query holds [response]
    and [result]; the record then has the eight columns in their order,
    the seven values of the system dictionary, and [redistr_server] true
    exactly when the result of the client reply is not [None]. *)
Theorem collect_succeeds_iff (w : World) (i : nat) (firewall : Firewall)
    (fw : list (string * pyval)) :
  outcome (collect w i firewall) = Ok fw ↔ collected w i firewall fw.
Proof.
  split; [apply CaseFacts.collect_ok_inv |]. unfold collected.
  intros (r1 & si & r & sys & res & E1 & E2 & E3 & E4 & E5 & Hk & Hf & Hs).
  destruct fw as [|[k1 v1] [|[k2 v2] [|[k3 v3] [|[k4 v4] [|[k5 v5]
    [|[k6 v6] [|[k7 v7] [|[k8 v8] [|? ?]]]]]]]]]; try discriminate Hk.
  injection Hk as -> -> -> -> -> -> -> ->.
  unfold column_sources in Hf. rewrite !Forall_cons in Hf. simpl in Hf.
  destruct Hf as ((? & G1 & [= <-]) & (? & G2 & [= <-]) & (? & G3 & [= <-]) &
                  (? & G4 & [= <-]) & (? & G5 & [= <-]) & (? & G6 & [= <-]) &
                  (? & G7 & [= <-]) & _).
  simpl in Hs. injection Hs as ->.
  unfold collect. rewrite E1, E2. GateFacts.run_step.
  rewrite E3. simpl. rewrite E4. simpl.
  rewrite G1, G2, G3, G4, G5, G6, G7. simpl. rewrite E5. reflexivity.
Qed.

(** ** The gate of a run *)

(** X7.  When the text session cannot be opened the script sends no
    command and never disconnects: it logs the exception and that no
    connection could be established, both at error level, makes no API
    call, and the run ends with [NameError] at the gate condition. *)
Theorem connection_failure_run (w : World) (e : exn) :
  ConnectHandler w = Raise e →
  main w =
    ([EConnect; ELog ERROR (MsgExn "Error connecting to the device: " e);
      ELog ERROR (Msg "Unable to establish connection with the device.")],
     Raise (NameError "parsed_output")).
Proof.
  intros Hc.
  pose proof (CaseFacts.gate_decision w) as Hg. rewrite Hc in Hg.
  rewrite (GateFacts.main_raise w _ Hg).
  now rewrite (GateFacts.gate_phase_not_connected w e Hc).
Qed.

Lemma connection_failure_run_witness :
  main Scenario.unreachable =
    ([EConnect;
      ELog ERROR (MsgExn "Error connecting to the device: "
                    (OtherException "TCP connection to device failed"));
      ELog ERROR (Msg "Unable to establish connection with the device.")],
     Raise (NameError "parsed_output")).
Proof.
  apply (connection_failure_run Scenario.unreachable). reflexivity.
Defined.

(** X8.  The run goes into the audit phase exactly when the session
    opened, the status command gave a text that is not empty, the client
    count in it, if any, has at most 4300 digits, the status word captured
    from it is [up], and the captured SSL description, lowered and with
    spaces replaced, is [default_certificates]. *)
Theorem gate_passes_iff (w : World) :
  gate_passes w ↔
  is_ok (ConnectHandler w) = true ∧
  ∃ text ssl,
    send_command w cmd_status = Ok text ∧ text ≠ "" ∧
    count_fits text = true ∧
    capture pat_status text = Some "up" ∧
    capture pat_ssl_config text = Some ssl ∧
    Text.replace_space (Text.lower ssl) = "default_certificates".
Proof.
  unfold gate_passes. rewrite CaseFacts.gate_decision. unfold decision. split.
  - destruct (ConnectHandler w) as [u|]; [| discriminate].
    destruct (send_command w cmd_status) as [text|]; [| discriminate].
    destruct (String.eqb_spec text ""); [discriminate |].
    destruct (count_fits text) eqn:Hfit; [| discriminate].
    destruct (capture pat_status text) as [status|] eqn:Hs; [| discriminate].
    destruct (String.eqb_spec status "up") as [-> |]; [| discriminate].
    destruct (capture pat_ssl_config text) as [ssl|] eqn:Hssl; [| discriminate].
    intros [= Heq]. apply String.eqb_eq in Heq.
    split; [reflexivity |]. now exists text, ssl.
  - intros (Hc & text & ssl & -> & Hne & -> & -> & -> & ->).
    destruct (ConnectHandler w); [| discriminate].
    now destruct (String.eqb_spec text "").
Qed.

(** X9.  A run ends as GateSkipped exactly when the session opened, the
    status command gave a text that is not empty, the client count in it,
    if any, has at most 4300 digits, a status word was captured, and
    either the word is not [up], or an SSL description was captured and
    its normal form is not [default_certificates]. *)
Theorem gate_skipped_iff (w : World) :
  outcome (main w) = Ok GateSkipped ↔
  is_ok (ConnectHandler w) = true ∧
  ∃ text status,
    send_command w cmd_status = Ok text ∧ text ≠ "" ∧
    count_fits text = true ∧
    capture pat_status text = Some status ∧
    (status ≠ "up" ∨
     ∃ ssl, capture pat_ssl_config text = Some ssl ∧
            Text.replace_space (Text.lower ssl) ≠ "default_certificates").
Proof.
  assert (outcome (main w) = Ok GateSkipped ↔
          outcome (gate_phase w) ≫= gate_check = Ok false) as ->.
  { destruct (outcome (gate_phase w) ≫= gate_check) as [[]|e] eqn:Hg.
    - rewrite (GateFacts.main_audit w Hg). cbn [outcome snd].
      destruct (outcome (audit_phase w)); split; discriminate.
    - now rewrite (GateFacts.main_skipped w Hg).
    - rewrite (GateFacts.main_raise w e Hg). split; discriminate. }
  rewrite CaseFacts.gate_decision. unfold decision. split.
  - destruct (ConnectHandler w) as [u|]; [| discriminate].
    destruct (send_command w cmd_status) as [text|]; [| discriminate].
    destruct (String.eqb_spec text ""); [discriminate |].
    destruct (count_fits text) eqn:Hfit; [| discriminate].
    destruct (capture pat_status text) as [status|] eqn:Hs; [| discriminate].
    intros H. split; [reflexivity |]. exists text, status.
    repeat split; try assumption.
    destruct (String.eqb_spec status "up") as [-> |]; [| now left].
    destruct (capture pat_ssl_config text) as [ssl|] eqn:Hssl; [| discriminate].
    injection H as H. right. exists ssl. split; [reflexivity |].
    now apply String.eqb_neq.
  - intros (Hc & text & status & -> & Hne & -> & -> & Hcase).
    destruct (ConnectHandler w); [| discriminate].
    destruct (String.eqb_spec text ""); [contradiction |].
    destruct (String.eqb_spec status "up") as [-> |]; [| reflexivity].
    destruct Hcase as [? | (ssl & -> & Hssl)]; [contradiction |].
    apply String.eqb_neq in Hssl. now rewrite Hssl.
Qed.

(** X10.  A run that ends as GateSkipped made no API call and printed
    nothing, and its last event is the disconnect of the text session. *)
Theorem gate_skipped_run (w : World) :
  outcome (main w) = Ok GateSkipped →
  Forall (fun e => api_event e = false) (trace (main w)) ∧
  printed (trace (main w)) = [] ∧
  ∃ t, trace (main w) = t ++ [EDisconnect].
Proof.
  intros Hskip.
  assert (outcome (gate_phase w) ≫= gate_check = Ok false) as Hg.
  { destruct (outcome (gate_phase w) ≫= gate_check) as [[]|e] eqn:Hg.
    - rewrite (GateFacts.main_audit w Hg) in Hskip. cbn [outcome snd] in Hskip.
      destruct (outcome (audit_phase w)); discriminate.
    - reflexivity.
    - rewrite (GateFacts.main_raise w e Hg) in Hskip. discriminate. }
  rewrite (GateFacts.main_skipped w Hg). cbn [trace fst].
  split; [| split].
  - eapply Forall_impl; [apply GateFacts.gate_phase_events |].
    intros e He. now destruct e.
  - apply CaseFacts.gate_phase_calls.
  - pose proof Hg as Hd. rewrite CaseFacts.gate_decision in Hd.
    destruct (ConnectHandler w) as [u|] eqn:Hc; [| discriminate].
    destruct (output_fits w) eqn:Hfit.
    + destruct (GateFacts.gate_phase_closed w) as (t & po & -> & _);
        [now rewrite Hc | exact Hfit |].
      now exists t.
    + destruct (GateFacts.gate_phase_open w) as (text & _ & Ho);
        [now rewrite Hc | exact Hfit |].
      rewrite Ho in Hg. discriminate.
Qed.

Lemma gate_skipped_run_witness :
  Forall (fun e => api_event e = false) (trace (main Scenario.service_down)) ∧
  printed (trace (main Scenario.service_down)) = [] ∧
  ∃ t, trace (main Scenario.service_down) = t ++ [EDisconnect].
Proof.
  apply (gate_skipped_run Scenario.service_down). vm_compute. reflexivity.
Defined.

(** X22.  When the session is open and the status command gives a text
    whose client count has more than 4300 digits, the exception of the
    parser is not caught: the run ends with it right after the output was
    logged, the session is not closed, and no API call is made. *)
Theorem overlong_count_ends_run (w : World) (text : string) :
  is_ok (ConnectHandler w) = true →
  send_command w cmd_status = Ok text →
  count_fits text = false →
  main w =
    ([ EConnect;
       ELog DEBUG (Msg "Connected successfully to the device.");
       ELog DEBUG (MsgStr "Sending command: " cmd_status);
       ESendCommand cmd_status;
       ELog DEBUG (Msg "Command executed.");
       ELog DEBUG (Msg "Command output:");
       ELog DEBUG (Msg text) ],
     Raise int_limit_error).
Proof.
  intros Hc Hs Hfit.
  assert (output_fits w = false) as Ho
    by (unfold output_fits, gate_output; now rewrite Hs).
  destruct (GateFacts.gate_phase_open w Hc Ho) as (text' & Hs' & Hg).
  assert (text' = text) as -> by congruence.
  assert (outcome (gate_phase w) ≫= gate_check = Raise int_limit_error) as Hr
    by now rewrite Hg.
  now rewrite (GateFacts.main_raise w _ Hr), Hg.
Qed.

Lemma overlong_count_ends_run_witness :
  main (with_send_command (fun _ => Ok Scenario.overlong_count_text)
          Scenario.three_members) =
    ([ EConnect;
       ELog DEBUG (Msg "Connected successfully to the device.");
       ELog DEBUG (MsgStr "Sending command: " cmd_status);
       ESendCommand cmd_status;
       ELog DEBUG (Msg "Command executed.");
       ELog DEBUG (Msg "Command output:");
       ELog DEBUG (Msg Scenario.overlong_count_text) ],
     Raise int_limit_error).
Proof.
  apply (overlong_count_ends_run
           (with_send_command (fun _ => Ok Scenario.overlong_count_text)
              Scenario.three_members)).
  - reflexivity.
  - reflexivity.
  - vm_compute. reflexivity.
Defined.

(** ** Registration *)

(** X11.  Registration only ever appends to [pan.children], and it
    succeeds only on three shapes of the entry field: a dictionary with a
    host (one child), a list whose elements all have a host (one child
    per element, in order), or an empty string (no child). *)
Theorem registration_succeeds_only (pan pan' : Panorama)
    (list_of_redist_clients : pyval) :
  register_clients pan list_of_redist_clients = Ok pan' →
  ∃ entry hosts,
    entry_of list_of_redist_clients = Ok entry ∧
    children pan' = children pan ++ map (fun h => {| serial := h |}) hosts ∧
    ((∃ items host,
        entry = PDict items ∧ assoc "host" items = Some host ∧
        hosts = [host]) ∨
     (∃ entries,
        entry = PList entries ∧
        Forall2 (fun each host => getitem each "host" = Ok host)
          entries hosts) ∨
     (entry = PStr "" ∧ hosts = [])).
Proof.
  unfold register_clients.
  destruct (entry_of list_of_redist_clients) as [entry|]; [| discriminate].
  simpl. intros H. exists entry.
  destruct entry as [| | |s|items|entries]; simpl in H; try discriminate.
  - destruct s as [|c s]; simpl in H; [| discriminate].
    injection H as <-. exists []. rewrite app_nil_r.
    split; [reflexivity |]. split; [reflexivity |]. right. right. now split.
  - destruct (assoc "host" items) as [host|] eqn:E; simpl in H;
      [| discriminate].
    injection H as <-. exists [host]. split; [reflexivity |].
    split; [reflexivity |]. left. now exists items, host.
  - destruct (CaseFacts.add_each_inv _ _ _ H) as (hosts & Hf & Hc).
    exists hosts. split; [reflexivity |]. split; [exact Hc |].
    right. left. now exists entries.
Qed.

Lemma registration_succeeds_only_witness :
  ∃ entry hosts,
    entry_of (Scenario.reply (PDict [("entry", Scenario.member "001")])) =
      Ok entry ∧
    [{| serial := PStr "001" |}] =
      [] ++ map (fun h => {| serial := h |}) hosts ∧
    ((∃ items host,
        entry = PDict items ∧ assoc "host" items = Some host ∧
        hosts = [host]) ∨
     (∃ entries,
        entry = PList entries ∧
        Forall2 (fun each host => getitem each "host" = Ok host)
          entries hosts) ∨
     (entry = PStr "" ∧ hosts = [])).
Proof.
  apply (registration_succeeds_only {| children := [] |}
           {| children := [{| serial := PStr "001" |}] |}
           (Scenario.reply (PDict [("entry", Scenario.member "001")]))).
  reflexivity.
Defined.

(** X12.  When the enumeration reply has an empty result (no
    redistribution client), reading its entry raises [TypeError]: the run
    ends with it right after the enumeration query, before the
    connected-devices query and before any device is queried. *)
Theorem empty_result_ends_run (w : World) (list_of_redist_clients : pyval) :
  gate_passes w →
  validation_survived w = true →
  pan_op w cmd_redist_clients = Ok list_of_redist_clients →
  response_result list_of_redist_clients = Ok PNone →
  outcome (main w) =
    Raise (TypeError "'NoneType' object is not subscriptable") ∧
  List.filter api_event (trace (main w)) =
    [ERefreshSystemInfo; EPanOp cmd_redist_clients] ∧
  printed (trace (main w)) = [].
Proof.
  intros Hg Hv Hop Hres.
  assert (register_clients {| children := [] |} list_of_redist_clients =
            Raise (TypeError "'NoneType' object is not subscriptable")) as Hreg
    by (unfold register_clients, entry_of; now rewrite Hres).
  rewrite (GateFacts.main_audit w Hg). cbn [trace outcome fst snd].
  destruct (CaseFacts.gate_phase_calls w) as [Hc Hp].
  unfold printed in *. rewrite List.filter_app, omap_app, Hc, Hp.
  unfold validation_survived in Hv.
  unfold audit_phase, validate_creds, enumerate_and_collect. cbv zeta.
  rewrite Hop.
  destruct (refresh_system_info w) as [[]|e]; GateFacts.run_step;
    rewrite ?Hv; GateFacts.run_step; rewrite Hreg; now GateFacts.run_step.
Qed.

Lemma empty_result_ends_run_witness :
  outcome (main Scenario.no_clients) =
    Raise (TypeError "'NoneType' object is not subscriptable") ∧
  List.filter api_event (trace (main Scenario.no_clients)) =
    [ERefreshSystemInfo; EPanOp cmd_redist_clients] ∧
  printed (trace (main Scenario.no_clients)) = [].
Proof.
  apply (empty_result_ends_run Scenario.no_clients (Scenario.reply PNone));
    vm_compute; reflexivity.
Defined.

(** X13.  An exception of the identity validation that is not a
    [PanDeviceError] is not caught: the run ends with it, and the
    validation is its last event. *)
Theorem unexpected_validation_error_ends_run (w : World) (e : exn) :
  gate_passes w →
  refresh_system_info w = Raise e →
  is_PanDeviceError e = false →
  main w = (trace (gate_phase w) ++ [ERefreshSystemInfo], Raise e).
Proof.
  intros Hg Hv He. rewrite (GateFacts.main_audit w Hg).
  unfold audit_phase, validate_creds. cbv zeta. rewrite Hv.
  GateFacts.run_step. rewrite He. reflexivity.
Qed.

Lemma unexpected_validation_error_ends_run_witness :
  main Scenario.validation_crashes =
    (trace (gate_phase Scenario.validation_crashes) ++ [ERefreshSystemInfo],
     Raise (OtherException "connection reset")).
Proof.
  apply (unexpected_validation_error_ends_run Scenario.validation_crashes).
  - vm_compute. reflexivity.
  - reflexivity.
  - reflexivity.
Defined.

(** ** The report and the API calls of a run *)

(** X14.  A run that completes got to the loop over the registered
    children and collected every one of them: the report has exactly one
    record per registered child, in registration order, and each record is
    what the collection for that child returned. *)
Theorem report_one_record_per_member (w : World)
    (report : list (list (string * pyval))) :
  outcome (main w) = Ok (Complete report) →
  reaches_collection w (registered w) ∧
  length report = length (registered w) ∧
  ∀ j fwj, registered w !! j = Some fwj →
    ∃ fw, report !! j = Some fw ∧ outcome (collect w j fwj) = Ok fw.
Proof.
  intros Hdone.
  destruct (CaseFacts.main_cases w)
    as [(r & Hm & Hr & _) | [(_ & e & n & t & Hm & _) | [fws Hreach]]].
  - rewrite Hm in Hdone. cbn [outcome snd] in Hdone.
    destruct Hr as [-> | [e ->]]; discriminate.
  - rewrite Hm in Hdone. discriminate.
  - destruct (CaseFacts.main_collection_calls w fws Hreach) as (-> & _).
    destruct (AuditFacts.main_collection w fws Hreach) as (resp & _ & Hm).
    rewrite Hm in Hdone. cbn [outcome snd] in Hdone.
    destruct (outcome (collect_loop w 0 fws [])) as [l|] eqn:Hl;
      [| discriminate].
    injection Hdone as ->.
    destruct (CaseFacts.collect_loop_ok_inv w fws 0 [] report Hl)
      as (facts & -> & Hlen & Hf).
    simpl. split; [exact Hreach |]. split; [exact Hlen | exact Hf].
Qed.

Lemma report_one_record_per_member_witness :
  reaches_collection Scenario.one_member (registered Scenario.one_member) ∧
  length [ [ ("hostname", PStr "fw-001"); ("ipaddress", PStr "192.0.2.1");
             ("serial", PStr "001"); ("model", PStr "PA-220");
             ("sw_version", PStr "10.1.0"); ("app_version", PStr "8500-7000");
             ("device_cert_status", PStr "Valid");
             ("redistr_server", PBool false) ] ] =
    length (registered Scenario.one_member) ∧
  ∀ j fwj, registered Scenario.one_member !! j = Some fwj →
    ∃ fw,
      [ [ ("hostname", PStr "fw-001"); ("ipaddress", PStr "192.0.2.1");
          ("serial", PStr "001"); ("model", PStr "PA-220");
          ("sw_version", PStr "10.1.0"); ("app_version", PStr "8500-7000");
          ("device_cert_status", PStr "Valid");
          ("redistr_server", PBool false) ] ] !! j = Some fw ∧
      outcome (collect Scenario.one_member j fwj) = Ok fw.
Proof.
  apply (report_one_record_per_member Scenario.one_member).
  vm_compute. reflexivity.
Defined.

(** X15.  A table is printed exactly when the run completes, once, and it
    is the table of the report the run returns; a run that is skipped at
    the gate or ends with an exception prints nothing. *)
Theorem table_printed_when_complete (w : World) :
  printed (trace (main w)) =
    match outcome (main w) with
    | Ok (Complete report) => [make_table report]
    | _ => []
    end.
Proof.
  destruct (CaseFacts.main_cases w)
    as [(r & Hm & Hr & _) | [(_ & e & n & t & Hm & _ & _ & Hp) | [fws Hreach]]].
  - rewrite Hm. cbn [trace outcome fst snd].
    rewrite (proj2 (CaseFacts.gate_phase_calls w)).
    now destruct Hr as [-> | [e ->]].
  - rewrite Hm. cbn [trace outcome fst snd]. unfold printed.
    rewrite omap_app. fold (printed (trace (gate_phase w))). fold (printed t).
    now rewrite (proj2 (CaseFacts.gate_phase_calls w)),
      (CaseFacts.printed_nil t Hp).
  - destruct (CaseFacts.main_collection_calls w fws Hreach) as (_ & _ & ->).
    destruct (AuditFacts.main_collection w fws Hreach) as (resp & _ & ->).
    cbn [outcome snd].
    now destruct (outcome (collect_loop w 0 fws [])).
Qed.

(** X16.  The table of a run that completes is rectangular: one row per
    record of the report, eight cells in every row, under the eight column
    names (no header at all when the report is empty), in grid format. *)
Theorem table_is_rectangular (w : World)
    (report : list (list (string * pyval))) :
  outcome (main w) = Ok (Complete report) →
  length (table_data (make_table report)) = length report ∧
  Forall (fun row => length row = 8%nat) (table_data (make_table report)) ∧
  headers (make_table report) =
    match report with [] => [] | _ :: _ => column_names end ∧
  tablefmt (make_table report) = "grid".
Proof.
  intros Hdone.
  assert (Forall (fun fw => map fst fw = column_names) report) as Hkeys.
  { destruct (CaseFacts.main_cases w)
      as [(r & Hm & Hr & _) | [(_ & e & n & t & Hm & _) | [fws Hreach]]].
    - rewrite Hm in Hdone. cbn [outcome snd] in Hdone.
      destruct Hr as [-> | [e ->]]; discriminate.
    - rewrite Hm in Hdone. discriminate.
    - destruct (AuditFacts.main_collection w fws Hreach) as (resp & _ & Hm).
      rewrite Hm in Hdone. cbn [outcome snd] in Hdone.
      destruct (outcome (collect_loop w 0 fws [])) as [l|] eqn:Hl;
        [| discriminate].
      injection Hdone as ->.
      destruct (CaseFacts.collect_loop_ok_inv w fws 0 [] report Hl)
        as (facts & -> & Hlen & Hf).
      simpl. apply Forall_lookup. intros j fw Hj.
      assert (j < length fws)%nat as Hlt
        by (rewrite <- Hlen; eapply lookup_lt_Some; eauto).
      destruct (lookup_lt_is_Some_2 fws j Hlt) as [fwj Hfwj].
      destruct (Hf j fwj Hfwj) as (fw' & Hfw' & Hc).
      assert (fw' = fw) as -> by congruence.
      now destruct (CaseFacts.collect_ok_inv w _ _ _ Hc)
        as (? & ? & ? & ? & ? & _ & _ & _ & _ & _ & Hk & _). }
  unfold make_table. cbn [table_data headers tablefmt].
  split; [now rewrite !length_map |]. split; [| split; [| reflexivity]].
  - apply Forall_map. eapply Forall_impl; [exact Hkeys |].
    intros fw Hfw. simpl. rewrite length_map.
    rewrite <- (length_map fst), Hfw. reflexivity.
  - destruct Hkeys as [|fw report Hfw _]; [reflexivity | exact Hfw].
Qed.

Lemma table_is_rectangular_witness :
  ∃ report,
    outcome (main Scenario.three_members) = Ok (Complete report) ∧
    length (table_data (make_table report)) = length report ∧
    Forall (fun row => length row = 8%nat) (table_data (make_table report)) ∧
    headers (make_table report) =
      match report with [] => [] | _ :: _ => column_names end ∧
    tablefmt (make_table report) = "grid".
Proof.
  eexists. split; [vm_compute; reflexivity |].
  apply (table_is_rectangular Scenario.three_members).
  vm_compute. reflexivity.
Defined.

(** X17.  No device is queried unless the run got to the loop: the gate
    passed, the validation did not stop the run, enumeration and
    registration succeeded and the connected-devices query answered.  A
    device that is queried is the registered child at the position of the
    query, and the query is one of the two of the loop body. *)
Theorem device_queries_guarded (w : World) (i : nat) (firewall : Firewall)
    (cmd : string) :
  EFirewallOp i firewall cmd ∈ trace (main w) →
  reaches_collection w (registered w) ∧
  registered w !! i = Some firewall ∧
  (cmd = cmd_redist_clients ∨ cmd = cmd_system_info).
Proof.
  intros Hin.
  assert (EFirewallOp i firewall cmd ∈ List.filter api_event (trace (main w)))
    as Hcall
    by (apply list_elem_of_In, List.filter_In; split;
        [now apply list_elem_of_In | reflexivity]).
  destruct (CaseFacts.main_cases w)
    as [(r & Hm & _) | [(_ & e & n & t & Hm & _ & Hf & _) | [fws Hreach]]].
  - rewrite Hm in Hcall. cbn [trace fst] in Hcall.
    rewrite (proj1 (CaseFacts.gate_phase_calls w)) in Hcall.
    now apply elem_of_nil in Hcall.
  - rewrite Hm in Hcall. cbn [trace fst] in Hcall.
    rewrite List.filter_app, (proj1 (CaseFacts.gate_phase_calls w)), Hf
      in Hcall.
    simpl in Hcall. apply elem_of_take in Hcall as (k & Hk & _).
    destruct k as [|[|[|k]]]; discriminate Hk.
  - destruct (CaseFacts.main_collection_calls w fws Hreach) as (-> & Hc & _).
    split; [exact Hreach |].
    rewrite Hc in Hcall. simpl in Hcall.
    rewrite !elem_of_cons in Hcall.
    destruct Hcall as [[=] | [[=] | [[=] | Hcall]]].
    destruct (CaseFacts.loop_calls w fws 0 []) as [[k Hk] _].
    assert (EFirewallOp i firewall cmd ∈ loop_queries 0 fws) as Hq
      by (rewrite Hk; apply elem_of_app; now left).
    apply CaseFacts.loop_queries_from in Hq as (_ & Hl & Hcmd).
    now rewrite Nat.sub_0_r in Hl.
Qed.

Lemma device_queries_guarded_witness :
  reaches_collection Scenario.three_members
    (registered Scenario.three_members) ∧
  registered Scenario.three_members !! 1%nat = Some {| serial := PStr "002" |} ∧
  (cmd_system_info = cmd_redist_clients ∨ cmd_system_info = cmd_system_info).
Proof.
  apply (device_queries_guarded Scenario.three_members 1
           {| serial := PStr "002" |} cmd_system_info).
  vm_compute. set_solver.
Defined.

(** X18.  In every run the API calls are made in one fixed order and none
    is made twice: they are a prefix of the validation, the enumeration
    query, the connected-devices query, and then for each registered child
    in order its client query and its system-info query; a run that
    completes made all of them. *)
Theorem api_calls_in_order (w : World) :
  List.filter api_event (trace (main w)) `prefix_of` api_calls (registered w) ∧
  NoDup (List.filter api_event (trace (main w))) ∧
  ∀ report, outcome (main w) = Ok (Complete report) →
    List.filter api_event (trace (main w)) = api_calls (registered w).
Proof.
  assert (List.filter api_event (trace (main w))
            `prefix_of` api_calls (registered w) ∧
          ∀ report, outcome (main w) = Ok (Complete report) →
            List.filter api_event (trace (main w)) = api_calls (registered w))
    as [Hp Hall].
  { destruct (CaseFacts.main_cases w)
      as [(r & Hm & Hr & _) | [(_ & e & n & t & Hm & _ & Hf & _) | [fws Hreach]]].
    - rewrite Hm. cbn [trace outcome fst snd].
      rewrite (proj1 (CaseFacts.gate_phase_calls w)).
      split; [apply prefix_nil |].
      intros report. now destruct Hr as [-> | [e ->]].
    - rewrite Hm. cbn [trace outcome fst snd].
      rewrite List.filter_app, (proj1 (CaseFacts.gate_phase_calls w)), Hf.
      split; [| discriminate]. simpl. unfold api_calls.
      apply prefix_app_r, prefix_take.
    - destruct (CaseFacts.main_collection_calls w fws Hreach) as (-> & -> & _).
      destruct (CaseFacts.loop_calls w fws 0 []) as [Hpre Hok].
      unfold api_calls. split; [now apply prefix_app |].
      intros report Hdone.
      destruct (AuditFacts.main_collection w fws Hreach) as (resp & _ & Hm).
      rewrite Hm in Hdone. cbn [outcome snd] in Hdone.
      destruct (outcome (collect_loop w 0 fws [])) eqn:Hl; [| discriminate].
      now rewrite Hok. }
  split; [exact Hp |]. split; [| exact Hall].
  destruct Hp as [k Hk].
  pose proof (CaseFacts.api_calls_NoDup (registered w)) as Hnd.
  rewrite Hk in Hnd. now apply NoDup_app in Hnd as [? _].
Qed.

(** ** What is logged at error level *)

Module ErrorLogFacts.
Import RunFacts GateFacts AuditFacts.

#[local] Arguments register_clients : simpl never.
#[local] Arguments collect_loop : simpl never.
#[local] Arguments collect : simpl never.

Lemma gate_phase_errors (w : World) :
  List.filter is_error_log (trace (gate_phase w)) = gate_errors w.
Proof.
  unfold gate_phase, connect_to_panorama, send_command_to_panorama,
    gate_errors.
  destruct (ConnectHandler w) as [[]|]; run_step; [| reflexivity].
  destruct (send_command w cmd_status) as [output|e]; run_step;
    [| reflexivity].
  destruct (String.eqb output ""); run_step; [reflexivity |].
  destruct (parse_status_command_output output) as [d|e]; reflexivity.
Qed.

Lemma collect_loop_errors (w : World) (firewalls : list Firewall) (i : nat)
    (acc : list (list (string * pyval))) :
  List.filter is_error_log (trace (collect_loop w i firewalls acc)) = [].
Proof.
  revert i acc; induction firewalls as [|fw fws IH]; intros i acc.
  - reflexivity.
  - rewrite collect_loop_cons.
    destruct (CaseFacts.collect_calls w i fw) as [[e He]|[r1 Hr1]].
    + now rewrite He.
    + destruct (outcome (collect w i fw)); rewrite Hr1; simpl;
        [apply IH | reflexivity].
Qed.

Lemma audit_phase_errors (w : World) :
  List.filter is_error_log (trace (audit_phase w)) = validation_errors w.
Proof.
  unfold audit_phase, validate_creds, validation_errors. cbv zeta.
  assert (List.filter is_error_log
            (trace (enumerate_and_collect w {| children := [] |})) = [])
    as Hrest.
  { unfold enumerate_and_collect.
    destruct (pan_op w cmd_redist_clients) as [resp|]; run_step;
      [| reflexivity].
    destruct (register_clients _ resp) as [pan|]; run_step; [| reflexivity].
    destruct (pan_op w cmd_devices_connected) as [conn|]; run_step;
      [| reflexivity].
    pose proof (collect_loop_errors w (children pan) 0 []) as Hl.
    destruct (collect_loop w 0 (children pan) []) as [t [l|e]]; simpl in *.
    - rewrite List.filter_app, Hl. reflexivity.
    - exact Hl. }
  destruct (enumerate_and_collect w {| children := [] |}) as [t r].
  simpl in Hrest.
  destruct (refresh_system_info w) as [[]|e]; run_step.
  - exact Hrest.
  - destruct (is_PanDeviceError e); simpl; [now rewrite Hrest | reflexivity].
Qed.

End ErrorLogFacts.

(** X19.  What a run logs at error level, in full: for the text session, a
    connection failure (with the note that no connection could be
    established) or a failure of the status command; and, when the gate
    passed, a [PanDeviceError] of the validation.  Nothing else is logged
    as an error: not an uncaught exception of the validation, of the
    enumeration or of a device query. *)
Theorem error_log_entries (w : World) :
  List.filter is_error_log (trace (main w)) =
    gate_errors w ++
    match outcome (gate_phase w) ≫= gate_check with
    | Ok true => validation_errors w
    | _ => []
    end.
Proof.
  destruct (outcome (gate_phase w) ≫= gate_check) as [[]|e] eqn:Hg.
  - rewrite (GateFacts.main_audit w Hg). cbn [trace fst].
    now rewrite List.filter_app, ErrorLogFacts.gate_phase_errors,
      ErrorLogFacts.audit_phase_errors.
  - rewrite (GateFacts.main_skipped w Hg). cbn [trace fst].
    now rewrite ErrorLogFacts.gate_phase_errors, app_nil_r.
  - rewrite (GateFacts.main_raise w e Hg). cbn [trace fst].
    now rewrite ErrorLogFacts.gate_phase_errors, app_nil_r.
Qed.
